(** * Anchor generation by k-means with the IoU distance

    A shallow embedding of [generate_anchors.py] (functions [run_k_mean] and
    [k_mean_cluster]) and of the box geometry it imports from [utils.box].

    Python floats are idealised as exact rationals ([Q]); every comparison
    the program makes is kept as a computable boolean test, so all
    definitions below evaluate on concrete inputs.  Python exceptions are
    the [Err] branch of [result]; the unbounded [while True] loop of
    [k_mean_cluster] takes a fuel argument and answers [None] when the fuel
    is exhausted before the loop breaks.

    Rounding is not modelled: a product that underflows to zero, a sum whose
    mean is off by one unit in the last place, or a distance [1 - iou] that
    rounds to 1 have no counterpart in [Q].  The statements below are
    therefore about the exceptions a call can raise, about the indices a
    scan ends on relative to the distances it computed itself, and about
    the results of the calls that return; none asserts that a clustering
    step over boxes of positive width and height returns, nor an identity
    that only exact arithmetic gives.

    Counts and positions ([n_anchors], [k], list indices) are natural
    numbers.  [run_k_mean] builds its anchors afresh on every call and
    mutates nothing it receives (neither the boxes nor the centroids, which
    in the driver alias ground-truth boxes or the anchors of the last call),
    so lists are passed by value. *)

From Stdlib Require Import String Ascii.
From Stdlib Require Import QArith Qabs Qminmax Lqa Lia ZArith Znat List Permutation Bool Arith.
Import ListNotations.
Open Scope Q_scope.

(** ** Exceptions and the error monad *)

Inductive error : Type :=
| ZeroDivisionError
| IndexError
| ValueError
| OverflowError.

Inductive result (A : Type) : Type :=
| Ok (a : A)
| Err (e : error).

Arguments Ok {A} a.
Arguments Err {A} e.

Definition bind {A B : Type} (r : result A) (k : A -> result B) : result B :=
  match r with
  | Ok a => k a
  | Err e => Err e
  end.

Notation "v <- r ;; k" := (bind r (fun v => k))
  (at level 61, r at next level, right associativity).
Notation "' p <- r ;; k" := (bind r (fun v => let p := v in k))
  (at level 61, p pattern, r at next level, right associativity).

(** ** Boxes and their intersection over union *)

(** Modelled from the spec: the class [Box] of [utils/box.py] is not part of
    the sources at hand; the spec gives it four scalar fields, centre x,
    centre y, width and height, read by the program as [.x .y .w .h]. *)
Record Box : Type := mkBox { x : Q; y : Q; w : Q; h : Q }.

Definition box_intersection (a b : Box) : Q :=
  Qmin (w a) (w b) * Qmin (h a) (h b).

Definition box_union (a b : Box) : Q :=
  w a * h a + w b * h b - box_intersection a b.

(** Modelled from the spec: [box_iou] of [utils/box.py] is not part of the
    sources at hand.  Following section 4.1: intersection width and height
    are the minima of the widths and heights, the union area is the sum of
    the two areas minus the intersection area, the result is their quotient,
    and the call fails when the union area is zero. *)
Definition box_iou (a b : Box) : result Q :=
  if Qeq_bool (box_union a b) 0 then Err ZeroDivisionError
  else Ok (box_intersection a b / box_union a b).

(** [a < b] on floats, as a boolean. *)
Definition Qltb (a b : Q) : bool := negb (Qle_bool b a).

(** ** One clustering step: [run_k_mean] *)

(** The mutable locals of [run_k_mean] during its first loop. *)
Record kstate : Type := mkState {
  groups : list (list Box);
  anchors : list Box;
  loss : Q
}.

(** [l[i] = f(l[i])]; Python raises [IndexError] when [i] is out of range. *)
Fixpoint list_modify {A : Type} (f : A -> A) (i : nat) (l : list A)
  : result (list A) :=
  match l, i with
  | [], _ => Err IndexError
  | a :: l', O => Ok (f a :: l')
  | a :: l', S i' => l'' <- list_modify f i' l' ;; Ok (a :: l'')
  end.

(** Lines 103-105: [n_anchors] empty groups and zero boxes. *)
Definition zero_box : Box := mkBox 0 0 0 0.

Definition init_state (n_anchors : nat) : kstate :=
  mkState (repeat [] n_anchors) (repeat zero_box n_anchors) 0.

(** Lines 111-115: the scan of the centroids for one box, started at
    position [i] with the running [min_distance] and [group_index]. *)
Fixpoint nearest_from (box : Box) (centroids : list Box) (i : nat)
    (min_distance : Q) (group_index : nat) : result (Q * nat) :=
  match centroids with
  | [] => Ok (min_distance, group_index)
  | centroid :: rest =>
      iou <- box_iou box centroid ;;
      let distance := 1 - iou in
      if Qltb distance min_distance
      then nearest_from box rest (S i) distance i
      else nearest_from box rest (S i) min_distance group_index
  end.

(** The distances [1 - box_iou(box, centroid)] in centroid order; it fails
    where the scan fails. *)
Fixpoint distances (box : Box) (centroids : list Box) : result (list Q) :=
  match centroids with
  | [] => Ok []
  | centroid :: rest =>
      iou <- box_iou box centroid ;;
      ds <- distances box rest ;;
      Ok ((1 - iou) :: ds)
  end.

(** Lines 108-115: [min_distance = 1], [group_index = 0], then the scan. *)
Definition nearest (box : Box) (centroids : list Box) : result (Q * nat) :=
  nearest_from box centroids 0%nat 1 0%nat.

(** The group and the distance the scan settles on for a box. *)
Definition group_of (centroids : list Box) (box : Box) : nat :=
  match nearest box centroids with
  | Ok (_, group_index) => group_index
  | Err _ => 0%nat
  end.

Definition distance_of (centroids : list Box) (box : Box) : Q :=
  match nearest box centroids with
  | Ok (min_distance, _) => min_distance
  | Err _ => 1
  end.

(** The boxes of a list that the scan sends to group [i]. *)
Definition members (centroids : list Box) (i : nat) (boxes : list Box)
  : list Box :=
  filter (fun box => (group_of centroids box =? i)%nat) boxes.

(** Lines 119-120: [anchor.w += box.w; anchor.h += box.h]. *)
Definition accumulate (box anchor : Box) : Box :=
  mkBox (x anchor) (y anchor) (w anchor + w box) (h anchor + h box).

(** Lines 108-120: the body of the loop over the boxes. *)
Definition assign_box (centroids : list Box) (st : kstate) (box : Box)
  : result kstate :=
  '(min_distance, group_index) <- nearest box centroids ;;
  groups' <- list_modify (fun g => g ++ [box]) group_index (groups st) ;;
  anchors' <- list_modify (accumulate box) group_index (anchors st) ;;
  Ok (mkState groups' anchors' (loss st + min_distance)).

(** Lines 107-120: the loop over the boxes. *)
Fixpoint assign_boxes (centroids : list Box) (st : kstate) (boxes : list Box)
  : result kstate :=
  match boxes with
  | [] => Ok st
  | box :: rest =>
      st' <- assign_box centroids st box ;;
      assign_boxes centroids st' rest
  end.

(** The state of [run_k_mean] when its first loop ends (line 120). *)
Definition run_assignment (n_anchors : nat) (boxes centroids : list Box)
  : result kstate :=
  assign_boxes centroids (init_state n_anchors) boxes.

(** Lines 125-126: [anchor.w /= n; anchor.h /= n]. *)
Definition divide (anchor : Box) (n : nat) : Box :=
  mkBox (x anchor) (y anchor)
        (w anchor / inject_Z (Z.of_nat n)) (h anchor / inject_Z (Z.of_nat n)).

(** Lines 122-126: every index of [range(n_anchors)] rewrites its own anchor
    only, and an empty group is skipped. *)
Definition average_anchor (gs : list (list Box)) (ans : list Box) (i : nat)
  : Box :=
  let g := nth i gs [] in
  let a := nth i ans zero_box in
  if (length g =? 0)%nat then a else divide a (length g).

Definition average_anchors (n_anchors : nat) (gs : list (list Box))
    (ans : list Box) : list Box :=
  map (average_anchor gs ans) (seq 0 n_anchors).

(** Lines 131-133: the inner loop over one group. *)
Fixpoint iou_group (anchor : Box) (group : list Box) (acc : Q * nat)
  : result (Q * nat) :=
  match group with
  | [] => Ok acc
  | gt_box :: rest =>
      v <- box_iou gt_box anchor ;;
      iou_group anchor rest (fst acc + v, S (snd acc))
  end.

(** Lines 130-133: the loop over [enumerate(anchors)], from position [i]. *)
Fixpoint iou_groups (gs : list (list Box)) (i : nat) (ans : list Box)
    (acc : Q * nat) : result (Q * nat) :=
  match ans with
  | [] => Ok acc
  | anchor :: rest =>
      acc' <- iou_group anchor (nth i gs []) acc ;;
      iou_groups gs (S i) rest acc'
  end.

(** The quotient [box_iou] returns when it returns. *)
Definition iou_value (a b : Box) : Q := box_intersection a b / box_union a b.

(** The (member, anchor) pairs in the order the loop of lines 130-133
    visits them, and the sum of their IoU. *)
Definition pairs (gs : list (list Box)) (ans : list Box) : list (Box * Box) :=
  flat_map (fun ag => map (fun gt_box => (gt_box, fst ag)) (snd ag))
           (combine ans gs).

Definition pair_iou_sum (gs : list (list Box)) (ans : list Box) : Q :=
  fold_left (fun acc p => acc + iou_value (fst p) (snd p)) (pairs gs ans) 0.

(** Line 135: [iou / counter]. *)
Definition average_iou (acc : Q * nat) : result Q :=
  match snd acc with
  | O => Err ZeroDivisionError
  | S _ => Ok (fst acc / inject_Z (Z.of_nat (snd acc)))
  end.

(** Lines 82-137. *)
Definition run_k_mean (n_anchors : nat) (boxes centroids : list Box)
  : result (list Box * Q * Q) :=
  st <- run_assignment n_anchors boxes centroids ;;
  let anchors' := average_anchors n_anchors (groups st) (anchors st) in
  acc <- iou_groups (groups st) 0 anchors' (0, 0%nat) ;;
  avg_iou <- average_iou acc ;;
  Ok (anchors', avg_iou, loss st).

(** ** The convergence driver: [k_mean_cluster] *)

(** Lines 67-69: [centroids.append(gt_boxes[centroid_index])]. *)
Fixpoint pick_centroids (gt_boxes : list Box) (centroid_indices : list nat)
  : result (list Box) :=
  match centroid_indices with
  | [] => Ok []
  | i :: rest =>
      match nth_error gt_boxes i with
      | None => Err IndexError
      | Some b => cs <- pick_centroids gt_boxes rest ;; Ok (b :: cs)
      end
  end.

(** Lines 73-77: the [while True] loop, entered with the current [anchors]
    and [loss]; [None] when the fuel runs out before the [break]. *)
Fixpoint k_mean_loop (fuel k : nat) (gt_boxes : list Box)
    (loss_convergence : Q) (anchors0 : list Box) (loss0 : Q)
  : option (result (list Box * Q)) :=
  match fuel with
  | O => None
  | S fuel' =>
      match run_k_mean k gt_boxes anchors0 with
      | Err e => Some (Err e)
      | Ok (anchors1, avg_iou, curr_loss) =>
          if Qltb (Qabs (loss0 - curr_loss)) loss_convergence
          then Some (Ok (anchors1, avg_iou))
          else k_mean_loop fuel' k gt_boxes loss_convergence anchors1 curr_loss
      end
  end.

(** Lines 61-79.  [centroid_indices] is the array drawn by
    [np.random.choice(len(gt_boxes), k)]: [k] indices below [len(gt_boxes)];
    the draw itself raises [ValueError] when there is no box to draw from
    and [k] is positive. *)
Definition k_mean_cluster (fuel k : nat) (gt_boxes : list Box)
    (centroid_indices : list nat) (loss_convergence : Q)
  : option (result (list Box * Q)) :=
  if ((length gt_boxes =? 0) && (0 <? k))%nat then Some (Err ValueError)
  else
    match pick_centroids gt_boxes centroid_indices with
    | Err e => Some (Err e)
    | Ok centroids =>
        match run_k_mean k gt_boxes centroids with
        | Err e => Some (Err e)
        | Ok (anchors0, _, loss0) =>
            k_mean_loop fuel k gt_boxes loss_convergence anchors0 loss0
        end
    end.

(** ** Quantities the statements are about *)

(** A box as [__main__] builds it (line 49): [Box(0, 0, w, h)]. *)
Definition wh (bw bh : Q) : Box := mkBox 0 0 bw bh.

(** Validity of a box: non-negative, or positive, width and height. *)
Definition nonneg (b : Box) : Prop := 0 <= w b /\ 0 <= h b.
Definition positive (b : Box) : Prop := 0 < w b /\ 0 < h b.
Definition area (b : Box) : Q := w b * h b.

Definition sum_w (boxes : list Box) : Q := fold_left (fun s b => s + w b) boxes 0.
Definition sum_h (boxes : list Box) : Q := fold_left (fun s b => s + h b) boxes 0.

(** The mean box of a group, as lines 119-126 compute it. *)
Definition mean_box (g : list Box) : Box :=
  mkBox 0 0 (sum_w g / inject_Z (Z.of_nat (length g)))
            (sum_h g / inject_Z (Z.of_nat (length g))).


(** The clustering steps of a run, numbered from the seeding step 0: every
    step takes the anchors of the step before it as its centroids. *)
Fixpoint step_n (k : nat) (boxes centroids : list Box) (n : nat)
  : result (list Box * Q * Q) :=
  match n with
  | O => run_k_mean k boxes centroids
  | S m =>
      r <- step_n k boxes centroids m ;;
      run_k_mean k boxes (fst (fst r))
  end.

(** The convergence test the driver makes after step [n + 1]: the losses of
    steps [n] and [n + 1] differ by less than the threshold. *)
Definition converged_at (k : nat) (boxes centroids : list Box) (eps : Q)
    (n : nat) : Prop :=
  exists r1 r2,
    step_n k boxes centroids n = Ok r1 /\
    step_n k boxes centroids (S n) = Ok r2 /\
    Qabs (snd r1 - snd r2) < eps.

(** Eleven boxes (in hundredths of the image size); the centroids drawn are
    the boxes 4, 6 and 8. *)
Definition cycle_boxes : list Box :=
  [wh (86#100) (7#100); wh (91#100) (85#100); wh (97#100) (58#100);
   wh (39#100) (88#100); wh (34#100) (66#100); wh (1#100) (97#100);
   wh (54#100) (44#100); wh (27#100) (68#100); wh (20#100) (16#100);
   wh (72#100) (30#100); wh (68#100) (19#100)].


Definition cycle_centroids : list Box :=
  [wh (34#100) (66#100); wh (54#100) (44#100); wh (20#100) (16#100)].

(** The value of a step that returned. *)
Definition outcome (r : result (list Box * Q * Q)) : list Box * Q * Q :=
  match r with
  | Ok v => v
  | Err _ => ([], 0, 0)
  end.

(** The seeding step and the two steps that follow it. *)
Definition cycle_r0 : list Box * Q * Q :=
  outcome (run_k_mean 3 cycle_boxes cycle_centroids).
Definition cycle_r1 : list Box * Q * Q :=
  outcome (run_k_mean 3 cycle_boxes (fst (fst cycle_r0))).
Definition cycle_r2 : list Box * Q * Q :=
  outcome (run_k_mean 3 cycle_boxes (fst (fst cycle_r1))).

(** The sum of a quantity over a list of boxes. *)
Definition total (f : Box -> Q) (l : list Box) : Q :=
  fold_right (fun b s => f b + s) 0 l.

(** ** The label reader and the presenter of [__main__] *)

(** What [float()] is applied to: a string (a field of a label line) or a
    number. *)
Inductive pyval : Type :=
| PyStr (s : string)
| PyNum (q : Q).

(** Line 40: [feature_size = 1/32] (true division). *)
Definition feature_size : Q := 1 / 32.

(** An integer operand of a float operation is converted to a float first:
    Python raises [OverflowError] when the integer, rounded to the nearest
    double, is beyond the largest one, that is from [2^1024 - 2^970] on. *)
Definition float_of_int (z : Z) : result Q :=
  if (2 ^ 1024 - 2 ^ 970 <=? Z.abs z)%Z then Err OverflowError
  else Ok (inject_Z z).

(** The integers [float_of_int] refuses. *)
Definition beyond_double (z : Z) : Prop := (2 ^ 1024 - 2 ^ 970 <= Z.abs z)%Z.

(** Lines 148-159.  [img_size] is the tuple [(img_width, img_height, 3)] of
    integers; [1. / width] raises [ZeroDivisionError] for a zero width. *)
Definition scale_rel_box (img_size : Z * Z * Z) (box : Box)
  : result (Q * Q * Q * Q) :=
  let '(width, height, _) := img_size in
  fwidth <- float_of_int width ;;
  if Qeq_bool fwidth 0 then Err ZeroDivisionError
  else
    let dw := 1 / fwidth in
    fheight <- float_of_int height ;;
    if Qeq_bool fheight 0 then Err ZeroDivisionError
    else
      let dh := 1 / fheight in
      Ok (x box * dw, y box * dh, w box * dw, h box * dh).

(** [s.split(",")]: the fields between the commas, empty fields kept. *)
Fixpoint split_comma (s : string) : list string :=
  match s with
  | EmptyString => [EmptyString]
  | String c rest =>
      if Ascii.eqb c ","%char then EmptyString :: split_comma rest
      else
        match split_comma rest with
        | field :: fields => String c field :: fields
        | [] => [String c EmptyString]
        end
  end.

(** The number of commas of a string. *)
Fixpoint count_commas (s : string) : nat :=
  match s with
  | EmptyString => 0%nat
  | String c rest =>
      if Ascii.eqb c ","%char then S (count_commas rest) else count_commas rest
  end.

(** Line 58: the pair printed for an anchor. *)
Definition present (img_width img_height : Z) (anchor : Box) : result (Q * Q) :=
  fwidth <- float_of_int img_width ;;
  let pw := w anchor * fwidth * feature_size in
  fheight <- float_of_int img_height ;;
  let ph := h anchor * fheight * feature_size in
  Ok (pw, ph).

(** Lines 57-58: the loop that prints the anchors; it stops at the first
    exception. *)
Fixpoint present_all (img_width img_height : Z) (anchors0 : list Box)
  : result (list (Q * Q)) :=
  match anchors0 with
  | [] => Ok []
  | anchor :: rest =>
      p <- present img_width img_height anchor ;;
      ps <- present_all img_width img_height rest ;;
      Ok (p :: ps)
  end.

Section Reader.

(** Two builtins of Python are parameters: [float(s)] on a string ([None]
    when it raises [ValueError]) and [str.rstrip()]. *)
Variable float_of_string : string -> option Q.
Variable rstrip : string -> string.

(** [float(v)]. *)
Definition py_float (v : pyval) : result Q :=
  match v with
  | PyNum q => Ok q
  | PyStr s =>
      match float_of_string s with
      | Some q => Ok q
      | None => Err ValueError
      end
  end.

(** Lines 140-145, the conversions in the order Python evaluates them. *)
Definition convert_bbox (x1 y1 x2 y2 : pyval) : result (Q * Q * Q * Q) :=
  fx2 <- py_float x2 ;;
  fx1 <- py_float x1 ;;
  let bw := fx2 - fx1 in
  fy2 <- py_float y2 ;;
  fy1 <- py_float y1 ;;
  let bh := fy2 - fy1 in
  fx1' <- py_float x1 ;;
  let xc := fx1' + bw / 2 in
  fy1' <- py_float y1 ;;
  let yc := fy1' + bh / 2 in
  Ok (xc, yc, bw, bh).

(** Lines 46-49: one label line; unpacking anything but six fields raises
    [ValueError]. *)
Definition read_line (img_size : Z * Z * Z) (line : string) : result Box :=
  match split_comma (rstrip line) with
  | [img_path; x1; y1; x2; y2; label] =>
      '(xc, yc, bw, bh) <-
        convert_bbox (PyStr x1) (PyStr y1) (PyStr x2) (PyStr y2) ;;
      '(xc', yc', bw', bh') <- scale_rel_box img_size (mkBox xc yc bw bh) ;;
      Ok (mkBox 0 0 bw' bh')
  | _ => Err ValueError
  end.


(** Lines 45-49: the loop over the lines, appending to [gt_boxes]. *)
Fixpoint read_lines (img_size : Z * Z * Z) (lines : list string)
    (gt_boxes : list Box) : result (list Box) :=
  match lines with
  | [] => Ok gt_boxes
  | line :: rest =>
      box <- read_line img_size line ;;
      read_lines img_size rest (gt_boxes ++ [box])
  end.

(** Lines 31-58 without the file and the console: from the lines of the
    label file to the average IoU and the pairs printed. *)
Definition main (fuel k : nat) (lines : list string) (loss_conv : Q)
    (img_width img_height : Z) (centroid_indices : list nat)
  : option (result (Q * list (Q * Q))) :=
  match read_lines (img_width, img_height, 3%Z) lines [] with
  | Err e => Some (Err e)
  | Ok gt_boxes =>
      match k_mean_cluster fuel k gt_boxes centroid_indices loss_conv with
      | None => None
      | Some (Err e) => Some (Err e)
      | Some (Ok (anchors1, avg_iou)) =>
          match present_all img_width img_height anchors1 with
          | Err e => Some (Err e)
          | Ok printed => Some (Ok (avg_iou, printed))
          end
      end
  end.

End Reader.

(** ** Geometry: bounds on [box_iou] *)

Lemma Qltb_lt (a b : Q) : Qltb a b = true <-> a < b.
Proof.
  unfold Qltb. rewrite negb_true_iff. split; intros H.
  - apply Qnot_le_lt. intros Hle. apply Qle_bool_iff in Hle. congruence.
  - destruct (Qle_bool b a) eqn:E; [|reflexivity].
    apply Qle_bool_iff in E. exfalso. apply (Qlt_not_le _ _ H E).
Qed.

Lemma Qltb_ge (a b : Q) : Qltb a b = false <-> b <= a.
Proof.
  unfold Qltb. rewrite negb_false_iff. apply Qle_bool_iff.
Qed.

Lemma positive_nonneg (b : Box) : positive b -> nonneg b.
Proof. intros [Hw Hh]. split; apply Qlt_le_weak; assumption. Qed.


Lemma intersection_nonneg (a b : Box) :
  nonneg a -> nonneg b -> 0 <= box_intersection a b.
Proof.
  intros [Hwa Hha] [Hwb Hhb]. unfold box_intersection.
  apply Qmult_le_0_compat; apply Q.min_glb; assumption.
Qed.

Lemma intersection_le_l (a b : Box) :
  nonneg a -> nonneg b -> box_intersection a b <= area a.
Proof.
  intros [Hwa Hha] [Hwb Hhb]. unfold box_intersection, area.
  pose proof (Q.le_min_l (w a) (w b)) as H1.
  pose proof (Q.le_min_l (h a) (h b)) as H2.
  assert (0 <= Qmin (w a) (w b)) as H3 by (apply Q.min_glb; assumption).
  assert (0 <= Qmin (h a) (h b)) as H4 by (apply Q.min_glb; assumption).
  nra.
Qed.

Lemma intersection_le_r (a b : Box) :
  nonneg a -> nonneg b -> box_intersection a b <= area b.
Proof.
  intros [Hwa Hha] [Hwb Hhb]. unfold box_intersection, area.
  pose proof (Q.le_min_r (w a) (w b)) as H1.
  pose proof (Q.le_min_r (h a) (h b)) as H2.
  assert (0 <= Qmin (w a) (w b)) as H3 by (apply Q.min_glb; assumption).
  assert (0 <= Qmin (h a) (h b)) as H4 by (apply Q.min_glb; assumption).
  nra.
Qed.

Lemma union_positive (a b : Box) :
  nonneg a -> nonneg b -> 0 < area a \/ 0 < area b -> 0 < box_union a b.
Proof.
  intros Ha Hb Hpos. unfold box_union. fold (area a) (area b).
  pose proof (intersection_le_l a b Ha Hb).
  pose proof (intersection_le_r a b Ha Hb).
  destruct Hpos; lra.
Qed.

(** With a positive union the quotient is computed, and lies in [0, 1]. *)
Lemma box_iou_defined (a b : Box) :
  nonneg a -> nonneg b -> 0 < area a \/ 0 < area b ->
  box_iou a b = Ok (box_intersection a b / box_union a b)
  /\ 0 <= box_intersection a b / box_union a b <= 1.
Proof.
  intros Ha Hb Hpos.
  pose proof (union_positive a b Ha Hb Hpos) as Hu.
  pose proof (intersection_nonneg a b Ha Hb) as Hi.
  split.
  - unfold box_iou. destruct (Qeq_bool (box_union a b) 0) eqn:E; [|reflexivity].
    apply Qeq_bool_iff in E. rewrite E in Hu. exfalso. apply (Qlt_irrefl _ Hu).
  - split.
    + apply Qle_shift_div_l; [assumption|]. lra.
    + apply Qle_shift_div_r; [assumption|].
      unfold box_union in *. fold (area a) (area b) in *.
      pose proof (intersection_le_l a b Ha Hb).
      pose proof (intersection_le_r a b Ha Hb). lra.
Qed.

(** C8: for boxes with non-negative width and height, at least one of them
    of positive area, the origin-centred [box_iou] of the spec is computed
    (the union is not zero) and its value lies between 0 and 1. *)
Theorem box_iou_in_unit_interval (a b : Box) :
  nonneg a -> nonneg b -> 0 < area a \/ 0 < area b ->
  exists r, box_iou a b = Ok r
            /\ r = box_intersection a b / box_union a b
            /\ 0 <= r /\ r <= 1.
Proof.
  intros Ha Hb Hpos.
  destruct (box_iou_defined a b Ha Hb Hpos) as [E [H0 H1]].
  eexists. repeat split; eauto.
Qed.

Lemma box_iou_in_unit_interval_witness :
  exists r, box_iou (wh (1#2) (1#4)) (wh 0 0) = Ok r
            /\ r = box_intersection (wh (1#2) (1#4)) (wh 0 0)
                    / box_union (wh (1#2) (1#4)) (wh 0 0)
            /\ 0 <= r /\ r <= 1.
Proof.
  apply (box_iou_in_unit_interval (wh (1#2) (1#4)) (wh 0 0)).
  - split; vm_compute; discriminate.
  - split; vm_compute; discriminate.
  - left. reflexivity.
Defined.

(** ** The error monad *)

Lemma bind_ok {A B : Type} (r : result A) (k : A -> result B) (b : B) :
  bind r k = Ok b -> exists a, r = Ok a /\ k a = Ok b.
Proof.
  destruct r as [a|e]; simpl; intros H; [|discriminate].
  exists a. split; [reflexivity | assumption].
Qed.

Lemma bind_err {A B : Type} (r : result A) (k : A -> result B) (e : error) :
  bind r k = Err e -> r = Err e \/ exists a, r = Ok a /\ k a = Err e.
Proof.
  destruct r as [a|e']; simpl; intros H.
  - right. exists a. split; [reflexivity | assumption].
  - left. inversion H. reflexivity.
Qed.

(** ** Indexed update *)

Lemma list_modify_ok {A : Type} (f : A -> A) (i : nat) (l l' : list A) :
  list_modify f i l = Ok l' ->
  (i < length l)%nat /\ length l' = length l /\
  forall j d, nth j l' d = if (j =? i)%nat then f (nth j l d) else nth j l d.
Proof.
  revert i l'. induction l as [|a l IH]; intros i l' H; simpl in H.
  - destruct i; discriminate.
  - destruct i as [|i].
    + inversion H; subst. simpl. repeat split; try lia.
      intros [|j] d; reflexivity.
    + apply bind_ok in H as [l'' [E H]].
      inversion H; subst. destruct (IH i l'' E) as [Hlt [Hlen Hnth]].
      simpl. repeat split; try lia.
      intros [|j] d; simpl; [reflexivity | apply Hnth].
Qed.

Lemma list_modify_lt {A : Type} (f : A -> A) (i : nat) (l : list A) :
  (i < length l)%nat -> exists l', list_modify f i l = Ok l'.
Proof.
  revert i. induction l as [|a l IH]; intros i H; simpl in H; [lia|].
  destruct i as [|i]; simpl.
  - eexists. reflexivity.
  - destruct (IH i) as [l' E]; [lia|]. rewrite E. simpl. eexists. reflexivity.
Qed.

Lemma list_modify_ge {A : Type} (f : A -> A) (i : nat) (l : list A) :
  (length l <= i)%nat -> list_modify f i l = Err IndexError.
Proof.
  revert i. induction l as [|a l IH]; intros i H.
  - destruct i; reflexivity.
  - destruct i as [|i]; simpl in *; [lia|]. rewrite IH by lia. reflexivity.
Qed.

(** ** The scan of the centroids *)

(** What the scan returns, in terms of the distances it met: the running
    minimum never grows, it is a lower bound of every distance met, the
    index only moves to a position whose distance is the new minimum, and
    every position before the final index (from the start of the scan) has
    a strictly larger distance when the index moved at all. *)
Lemma nearest_from_spec (box : Box) (cs : list Box) (i : nat) (d0 : Q) (g0 : nat)
    (d : Q) (g : nat) :
  nearest_from box cs i d0 g0 = Ok (d, g) ->
  exists ds,
    distances box cs = Ok ds /\
    d <= d0 /\
    Forall (fun dj => d <= dj) ds /\
    ((g = g0 /\ d = d0 /\ Forall (fun dj => d0 <= dj) ds) \/
     ((i <= g)%nat /\ d < d0 /\ nth_error ds (g - i) = Some d /\
      forall j dj, (j < g - i)%nat -> nth_error ds j = Some dj -> d < dj)).
Proof.
  revert i d0 g0. induction cs as [|c cs IH]; intros i d0 g0 H; simpl in H.
  - inversion H; subst. exists []. simpl. repeat split.
    + apply Qle_refl.
    + constructor.
    + left. repeat split. constructor.
  - unfold distances; fold distances. simpl.
    destruct (box_iou box c) as [v|e] eqn:E; simpl in *; [|discriminate].
    destruct (Qltb (1 - v) d0) eqn:Hlt.
    + apply Qltb_lt in Hlt.
      destruct (IH _ _ _ H) as [ds [Hds [Hle [Hall Hcase]]]].
      rewrite Hds. simpl. exists ((1 - v) :: ds). repeat split.
      * lra.
      * constructor; assumption.
      * right. destruct Hcase as [[-> [-> Hall']] | [Hi [Hd [Hnth Hbefore]]]].
        -- repeat split; try lia; try assumption.
           rewrite Nat.sub_diag. reflexivity.
        -- repeat split; try lia; try lra.
           ++ replace (g - i)%nat with (S (g - S i)) by lia. exact Hnth.
           ++ intros j dj Hj Hnj. destruct j as [|j]; simpl in Hnj.
              ** inversion Hnj; subst. assumption.
              ** apply (Hbefore j); [lia | assumption].
    + apply Qltb_ge in Hlt.
      destruct (IH _ _ _ H) as [ds [Hds [Hle [Hall Hcase]]]].
      rewrite Hds. simpl. exists ((1 - v) :: ds). repeat split.
      * assumption.
      * constructor; [lra | assumption].
      * destruct Hcase as [[-> [-> Hall']] | [Hi [Hd [Hnth Hbefore]]]].
        -- left. repeat split. constructor; assumption.
        -- right. repeat split; try lia; try assumption.
           ++ replace (g - i)%nat with (S (g - S i)) by lia. exact Hnth.
           ++ intros j dj Hj Hnj. destruct j as [|j]; simpl in Hnj.
              ** inversion Hnj; subst. lra.
              ** apply (Hbefore j); [lia | assumption].
Qed.

(** ** The assignment loop *)

Lemma assign_box_ok (cs : list Box) (st st' : kstate) (box : Box) :
  assign_box cs st box = Ok st' ->
  let g := group_of cs box in
  nearest box cs = Ok (distance_of cs box, g) /\
  (g < length (groups st))%nat /\
  length (groups st') = length (groups st) /\
  length (anchors st') = length (anchors st) /\
  (forall i, nth i (groups st') [] =
             if (i =? g)%nat then nth i (groups st) [] ++ [box]
             else nth i (groups st) []) /\
  (forall i, nth i (anchors st') zero_box =
             if (i =? g)%nat then accumulate box (nth i (anchors st) zero_box)
             else nth i (anchors st) zero_box) /\
  loss st' = loss st + distance_of cs box.
Proof.
  unfold assign_box, group_of, distance_of. intros H.
  apply bind_ok in H as [[d g] [En H]]. rewrite En. cbn zeta in H.
  apply bind_ok in H as [gs [Eg H]].
  apply bind_ok in H as [ans [Ea H]].
  inversion H; subst; clear H. simpl.
  destruct (list_modify_ok _ _ _ _ Eg) as [Hlt [Hlen Hnth]].
  destruct (list_modify_ok _ _ _ _ Ea) as [Hlt' [Hlen' Hnth']].
  repeat split; auto.
Qed.

Lemma assign_boxes_ok (cs : list Box) (boxes : list Box) (st0 st : kstate) :
  assign_boxes cs st0 boxes = Ok st ->
  length (groups st) = length (groups st0) /\
  length (anchors st) = length (anchors st0) /\
  Forall (fun b => nearest b cs = Ok (distance_of cs b, group_of cs b) /\
                   (group_of cs b < length (groups st0))%nat) boxes /\
  (forall i, nth i (groups st) [] = nth i (groups st0) [] ++ members cs i boxes) /\
  (forall i, nth i (anchors st) zero_box =
             fold_left (fun a b => accumulate b a) (members cs i boxes)
                       (nth i (anchors st0) zero_box)) /\
  loss st = fold_left (fun l b => l + distance_of cs b) boxes (loss st0).
Proof.
  revert st0. induction boxes as [|box rest IH]; intros st0 H; simpl in H.
  - inversion H; subst. unfold members. simpl. repeat split; auto.
    intros i. rewrite app_nil_r. reflexivity.
  - apply bind_ok in H as [st1 [E1 H]].
    destruct (assign_box_ok _ _ _ _ E1) as [Hn [Hlt [Hlg [Hla [Hg [Ha Hl]]]]]].
    destruct (IH _ H) as [Hlg' [Hla' [Hall [Hg' [Ha' Hl']]]]].
    repeat split.
    + congruence.
    + congruence.
    + constructor; [split; assumption|].
      rewrite Hlg in Hall. exact Hall.
    + intros i. rewrite Hg', Hg. unfold members. simpl.
      rewrite (Nat.eqb_sym (group_of cs box) i).
      destruct (i =? group_of cs box)%nat; [|reflexivity].
      rewrite <- app_assoc. reflexivity.
    + intros i. rewrite Ha', Ha. unfold members. simpl.
      rewrite (Nat.eqb_sym (group_of cs box) i).
      destruct (i =? group_of cs box)%nat; reflexivity.
    + rewrite Hl', Hl. reflexivity.
Qed.

Lemma nth_repeat_nil (n i : nat) : nth i (repeat (@nil Box) n) [] = [].
Proof.
  revert i. induction n as [|n IH]; intros [|i]; simpl; auto.
Qed.

Lemma nth_repeat_zero (n i : nat) : nth i (repeat zero_box n) zero_box = zero_box.
Proof.
  revert i. induction n as [|n IH]; intros [|i]; simpl; auto.
Qed.

(** The state at the end of the first loop of [run_k_mean]: group [i] holds,
    in input order, the boxes whose scan ended on index [i]; anchor [i]
    holds their accumulated width and height; [loss] is the sum of the
    distances the scans ended on. *)
Lemma run_assignment_ok (n : nat) (boxes cs : list Box) (st : kstate) :
  run_assignment n boxes cs = Ok st ->
  length (groups st) = n /\
  length (anchors st) = n /\
  Forall (fun b => nearest b cs = Ok (distance_of cs b, group_of cs b) /\
                   (group_of cs b < n)%nat) boxes /\
  (forall i, nth i (groups st) [] = members cs i boxes) /\
  (forall i, nth i (anchors st) zero_box =
             fold_left (fun a b => accumulate b a) (members cs i boxes) zero_box) /\
  loss st = fold_left (fun l b => l + distance_of cs b) boxes 0.
Proof.
  unfold run_assignment. intros H.
  destruct (assign_boxes_ok _ _ _ _ H) as [Hlg [Hla [Hall [Hg [Ha Hl]]]]].
  simpl in *. rewrite repeat_length in *.
  repeat split; auto.
  - intros i. rewrite Hg, nth_repeat_nil. reflexivity.
  - intros i. rewrite Ha, nth_repeat_zero. reflexivity.
Qed.

(** C1: when the assignment loop of [run_k_mean] completes, group [i] is
    exactly the boxes whose scan ended on index [i], and for every box the
    scan ends on the minimum of 1 and the distances [1 - box_iou] to the
    centroids: if some distance is below 1 the box sits in the group of the
    first centroid that attains the minimum distance (every earlier centroid
    is strictly farther), and if no distance is below 1 the box sits in
    group 0 with the initial bound 1. *)
Theorem run_k_mean_assigns_nearest (n : nat) (boxes cs : list Box) (st : kstate) :
  run_assignment n boxes cs = Ok st ->
  (forall i, nth i (groups st) [] = members cs i boxes) /\
  forall box, In box boxes ->
    exists ds,
      distances box cs = Ok ds /\
      In box (nth (group_of cs box) (groups st) []) /\
      distance_of cs box <= 1 /\
      Forall (fun dj => distance_of cs box <= dj) ds /\
      ((exists dj, In dj ds /\ dj < 1) ->
       nth_error ds (group_of cs box) = Some (distance_of cs box) /\
       forall j dj, (j < group_of cs box)%nat -> nth_error ds j = Some dj ->
                    distance_of cs box < dj) /\
      (Forall (fun dj => ~ dj < 1) ds ->
       group_of cs box = 0%nat /\ distance_of cs box = 1).
Proof.
  intros H.
  destruct (run_assignment_ok _ _ _ _ H) as [_ [_ [Hall [Hg _]]]].
  split; [exact Hg|].
  intros box Hin.
  rewrite Forall_forall in Hall. destruct (Hall box Hin) as [Hn _].
  unfold nearest in Hn.
  destruct (nearest_from_spec _ _ _ _ _ _ _ Hn) as [ds [Hds [Hle [Hlow Hcase]]]].
  exists ds. split; [exact Hds|]. split.
  { rewrite Hg. unfold members. apply filter_In. split; [exact Hin|].
    apply Nat.eqb_refl. }
  split; [exact Hle|]. split; [exact Hlow|].
  destruct Hcase as [[Eg [Ed Hge]] | [_ [Hlt [Hnth Hbefore]]]].
  - split.
    + intros [dj [Hdj Hlt]]. rewrite Forall_forall in Hge.
      specialize (Hge dj Hdj). lra.
    + intros _. split; assumption.
  - rewrite Nat.sub_0_r in *. split.
    + intros _. split; assumption.
    + intros Hno. rewrite Forall_forall in Hno.
      exfalso. apply (Hno _ (nth_error_In _ _ Hnth)). exact Hlt.
Qed.

Lemma run_k_mean_assigns_nearest_witness :
  exists st,
    run_assignment 2 [wh (1#2) (1#2); wh (1#10) (1#10); wh (1#2) (1#2)]
                   [wh (1#2) (1#2); wh (1#10) (1#10)] = Ok st /\
    nth 0 (groups st) [] = [wh (1#2) (1#2); wh (1#2) (1#2)] /\
    nth 1 (groups st) [] = [wh (1#10) (1#10)].
Proof.
  eexists. split; [vm_compute; reflexivity|].
  destruct (run_k_mean_assigns_nearest 2
              [wh (1#2) (1#2); wh (1#10) (1#10); wh (1#2) (1#2)]
              [wh (1#2) (1#2); wh (1#10) (1#10)] _ eq_refl) as [Hg _].
  split; rewrite Hg; vm_compute; reflexivity.
Defined.

(** ** The groups partition the boxes *)

Lemma list_modify_append_perm (b : Box) (i : nat) (l l' : list (list Box)) :
  list_modify (fun g => g ++ [b]) i l = Ok l' ->
  Permutation (concat l') (b :: concat l).
Proof.
  revert i l'. induction l as [|g l IH]; intros i l' H.
  - destruct i; discriminate.
  - destruct i as [|i]; simpl in H.
    + inversion H; subst. simpl. rewrite <- app_assoc. simpl.
      symmetry. apply Permutation_middle.
    + apply bind_ok in H as [l'' [E H]]. inversion H; subst. simpl.
      rewrite (IH _ _ E). symmetry. apply Permutation_middle.
Qed.

Lemma assign_boxes_perm (cs boxes : list Box) (st0 st : kstate) :
  assign_boxes cs st0 boxes = Ok st ->
  Permutation (concat (groups st)) (concat (groups st0) ++ boxes).
Proof.
  revert st0. induction boxes as [|box rest IH]; intros st0 H; simpl in H.
  - inversion H; subst. rewrite app_nil_r. reflexivity.
  - apply bind_ok in H as [st1 [E1 H]].
    rewrite (IH _ H).
    unfold assign_box in E1.
    apply bind_ok in E1 as [[d g] [En E1]]. cbn zeta in E1.
    apply bind_ok in E1 as [gs [Eg E1]].
    apply bind_ok in E1 as [ans [Ea E1]].
    inversion E1; subst; clear E1. simpl.
    rewrite (list_modify_append_perm _ _ _ _ Eg). simpl.
    apply Permutation_middle.
Qed.

Lemma concat_repeat_nil (n : nat) : concat (repeat (@nil Box) n) = [].
Proof. induction n as [|n IH]; simpl; auto. Qed.

(** ** The average-IoU loop *)

Lemma box_iou_value (a b : Box) (v : Q) :
  box_iou a b = Ok v -> v = iou_value a b /\ ~ box_union a b == 0.
Proof.
  unfold box_iou, iou_value.
  destruct (Qeq_bool (box_union a b) 0) eqn:E; intros H; inversion H.
  split; [reflexivity|]. apply Qeq_bool_neq. exact E.
Qed.

Lemma iou_group_ok (anchor : Box) (group : list Box) (acc acc' : Q * nat) :
  iou_group anchor group acc = Ok acc' ->
  fst acc' = fold_left (fun s b => s + iou_value b anchor) group (fst acc) /\
  snd acc' = (snd acc + length group)%nat.
Proof.
  revert acc. induction group as [|b group IH]; intros acc H; simpl in H.
  - inversion H; subst. simpl. split; [reflexivity | lia].
  - apply bind_ok in H as [v [Ev H]].
    destruct (box_iou_value _ _ _ Ev) as [-> _].
    destruct (IH _ H) as [H1 H2]. simpl in *. split; [exact H1 | lia].
Qed.

Lemma pairs_cons (g : list Box) (gs : list (list Box)) (a : Box) (ans : list Box) :
  pairs (g :: gs) (a :: ans) = map (fun b => (b, a)) g ++ pairs gs ans.
Proof. reflexivity. Qed.

Lemma fold_left_pairs_map (a : Box) (g : list Box) (q : Q) :
  fold_left (fun acc p => acc + iou_value (fst p) (snd p))
            (map (fun b => (b, a)) g) q =
  fold_left (fun s b => s + iou_value b a) g q.
Proof.
  revert q. induction g as [|b g IH]; intros q; simpl; auto.
Qed.

Lemma iou_groups_ok (pre gs : list (list Box)) (ans : list Box) (acc acc' : Q * nat) :
  length ans = length gs ->
  iou_groups (pre ++ gs) (length pre) ans acc = Ok acc' ->
  fst acc' = fold_left (fun s p => s + iou_value (fst p) (snd p))
                       (pairs gs ans) (fst acc) /\
  snd acc' = (snd acc + list_sum (map (@length Box) gs))%nat.
Proof.
  revert pre gs acc. induction ans as [|a ans IH]; intros pre gs acc Hlen H.
  - destruct gs; [|discriminate]. simpl in H. inversion H; subst.
    simpl. split; [reflexivity | lia].
  - destruct gs as [|g gs]; [discriminate|]. simpl in Hlen.
    simpl in H. apply bind_ok in H as [acc1 [E1 H]].
    rewrite nth_middle in E1.
    destruct (iou_group_ok _ _ _ _ E1) as [F1 S1].
    replace (pre ++ g :: gs) with ((pre ++ [g]) ++ gs) in H
      by (rewrite <- app_assoc; reflexivity).
    replace (S (length pre)) with (length (pre ++ [g])) in H
      by (rewrite length_app; simpl; lia).
    destruct (IH _ _ _ (eq_add_S _ _ Hlen) H) as [F2 S2].
    rewrite pairs_cons, fold_left_app, fold_left_pairs_map.
    rewrite F2, F1, S2, S1. simpl. split; [reflexivity | lia].
Qed.

Lemma average_anchors_length (n : nat) (gs : list (list Box)) (ans : list Box) :
  length (average_anchors n gs ans) = n.
Proof. unfold average_anchors. rewrite length_map, length_seq. reflexivity. Qed.

(** C3: after the assignment loop of a step with [K >= 1] centroids, the
    [K] groups are a partition of the input boxes: their concatenation is a
    rearrangement of the input list, a box lies in no group but the one its
    scan ended on, the group sizes add up to [N], and the counter with which
    the average-IoU loop ends is [N]. *)
Theorem groups_partition_boxes (K : nat) (boxes cs : list Box) (st : kstate) :
  (1 <= K)%nat -> length cs = K ->
  run_assignment K boxes cs = Ok st ->
  length (groups st) = K /\
  Permutation (concat (groups st)) boxes /\
  (forall i box, In box (nth i (groups st) []) -> group_of cs box = i) /\
  list_sum (map (@length Box) (groups st)) = length boxes /\
  forall acc,
    iou_groups (groups st) 0 (average_anchors K (groups st) (anchors st)) (0, 0%nat)
    = Ok acc ->
    snd acc = length boxes.
Proof.
  intros HK Hcs H.
  destruct (run_assignment_ok _ _ _ _ H) as [Hlg [_ [_ [Hg _]]]].
  pose proof (assign_boxes_perm _ _ _ _ H) as Hperm.
  simpl in Hperm. rewrite concat_repeat_nil in Hperm. simpl in Hperm.
  assert (list_sum (map (@length Box) (groups st)) = length boxes) as Hsum.
  { rewrite <- length_concat. apply Permutation_length. exact Hperm. }
  repeat split; auto.
  - intros i box Hin. rewrite Hg in Hin. unfold members in Hin.
    apply filter_In in Hin as [_ Heq]. apply Nat.eqb_eq. exact Heq.
  - intros acc Hacc.
    destruct (iou_groups_ok [] (groups st) _ _ _
                (eq_trans (average_anchors_length _ _ _) (eq_sym Hlg)) Hacc)
      as [_ Hc].
    simpl in Hc. rewrite Hc. exact Hsum.
Qed.

Lemma groups_partition_boxes_witness :
  exists st,
    run_assignment 2 [wh (1#2) (1#2); wh (1#10) (1#10); wh (1#2) (1#2)]
                   [wh (1#2) (1#2); wh (1#10) (1#10)] = Ok st /\
    list_sum (map (@length Box) (groups st)) = 3%nat.
Proof.
  eexists. split; [vm_compute; reflexivity|].
  apply (groups_partition_boxes 2
           [wh (1#2) (1#2); wh (1#10) (1#10); wh (1#2) (1#2)]
           [wh (1#2) (1#2); wh (1#10) (1#10)] _ (le_S 1 1 (le_n 1)) eq_refl eq_refl).
Defined.

(** ** The accumulated and averaged anchors *)

Lemma accumulate_fold (g : list Box) (a : Box) :
  fold_left (fun a b => accumulate b a) g a =
  mkBox (x a) (y a) (fold_left (fun s b => s + w b) g (w a))
                    (fold_left (fun s b => s + h b) g (h a)).
Proof.
  revert a. induction g as [|b g IH]; intros a; simpl.
  - destruct a; reflexivity.
  - rewrite IH. reflexivity.
Qed.



Lemma inject_nat_pos (n : nat) : (0 < n)%nat -> 0 < inject_Z (Z.of_nat n).
Proof.
  intros H. replace 0 with (inject_Z 0) by reflexivity.
  rewrite <- Zlt_Qlt. lia.
Qed.


Lemma nth_map_seq {A : Type} (f : nat -> A) (n i : nat) (d : A) :
  (i < n)%nat -> nth i (map f (seq 0 n)) d = f i.
Proof.
  intros H. rewrite (nth_indep _ d (f 0%nat)) by (rewrite length_map, length_seq; lia).
  rewrite map_nth, seq_nth by lia. reflexivity.
Qed.

(** The anchors a step returns: the zero box for an empty group, the mean
    box of the group otherwise. *)
Lemma average_anchors_ok (n : nat) (boxes cs : list Box) (st : kstate) (i : nat) :
  run_assignment n boxes cs = Ok st -> (i < n)%nat ->
  nth i (average_anchors n (groups st) (anchors st)) zero_box =
  match members cs i boxes with
  | [] => zero_box
  | _ :: _ => mean_box (members cs i boxes)
  end.
Proof.
  intros H Hi.
  destruct (run_assignment_ok _ _ _ _ H) as [_ [_ [_ [Hg [Ha _]]]]].
  unfold average_anchors. rewrite nth_map_seq by exact Hi.
  unfold average_anchor. rewrite Hg, Ha, accumulate_fold.
  destruct (members cs i boxes) as [|b g]; reflexivity.
Qed.

Lemma run_k_mean_ok (n : nat) (boxes cs ans : list Box) (avg l : Q) :
  run_k_mean n boxes cs = Ok (ans, avg, l) ->
  exists st acc,
    run_assignment n boxes cs = Ok st /\
    ans = average_anchors n (groups st) (anchors st) /\
    iou_groups (groups st) 0 ans (0, 0%nat) = Ok acc /\
    average_iou acc = Ok avg /\
    l = loss st.
Proof.
  unfold run_k_mean. intros H.
  apply bind_ok in H as [st [Est H]].
  apply bind_ok in H as [acc [Eacc H]].
  apply bind_ok in H as [avg' [Eavg H]].
  inversion H; subst. exists st, acc. repeat split; auto.
Qed.

Lemma inject_nat_succ (n : nat) :
  inject_Z (Z.of_nat (S n)) == inject_Z (Z.of_nat n) + 1.
Proof.
  rewrite Nat2Z.inj_succ. unfold Z.succ. rewrite inject_Z_plus. reflexivity.
Qed.



Lemma Forall2_of_nth {A B : Type} (R : A -> B -> Prop) (da : A) (db : B)
    (l1 : list A) (l2 : list B) :
  length l1 = length l2 ->
  (forall i, (i < length l1)%nat -> R (nth i l1 da) (nth i l2 db)) ->
  Forall2 R l1 l2.
Proof.
  revert l2. induction l1 as [|a l1 IH]; intros [|b l2] Hlen Hnth;
    try discriminate; constructor.
  - apply (Hnth 0%nat). simpl. lia.
  - apply IH; [simpl in Hlen; lia|].
    intros i Hi. apply (Hnth (S i)). simpl. lia.
Qed.






(** ** Failures of a step *)

Lemma list_modify_err {A : Type} (f : A -> A) (i : nat) (l : list A) (e : error) :
  list_modify f i l = Err e -> e = IndexError.
Proof.
  intros H. destruct (Nat.lt_ge_cases i (length l)) as [Hlt | Hge].
  - destruct (list_modify_lt f i l Hlt) as [l' E]. congruence.
  - rewrite (list_modify_ge f i l Hge) in H. congruence.
Qed.

Lemma iou_groups_empty (gs : list (list Box)) (i : nat) (ans : list Box)
    (acc : Q * nat) :
  (forall j, nth j gs [] = []) -> iou_groups gs i ans acc = Ok acc.
Proof.
  intros Hgs. revert i. induction ans as [|a ans IH]; intros i; simpl.
  - reflexivity.
  - rewrite Hgs. simpl. apply IH.
Qed.

(** With no box at all, line 135 divides by a zero counter. *)
Lemma run_k_mean_no_boxes (n : nat) (cs : list Box) :
  run_k_mean n [] cs = Err ZeroDivisionError.
Proof.
  unfold run_k_mean, run_assignment. simpl.
  rewrite iou_groups_empty by (intros j; apply nth_repeat_nil).
  reflexivity.
Qed.

(** The only exception of [box_iou] is the division by a zero union. *)
Lemma box_iou_err (a b : Box) (e : error) :
  box_iou a b = Err e -> e = ZeroDivisionError.
Proof.
  unfold box_iou. destruct (Qeq_bool (box_union a b) 0); intros H; congruence.
Qed.

Lemma nearest_from_err (box : Box) (cs : list Box) (i : nat) (d : Q) (g : nat)
    (e : error) :
  nearest_from box cs i d g = Err e ->
  exists c, In c cs /\ box_iou box c = Err e.
Proof.
  revert i d g. induction cs as [|c cs IH]; intros i d g H; simpl in H.
  - discriminate.
  - destruct (box_iou box c) as [v|e'] eqn:E; simpl in H.
    + destruct (Qltb (1 - v) d); apply IH in H; destruct H as [c' [Hin Hc']];
        exists c'; split; auto; right; exact Hin.
    + exists c. split; [left; reflexivity | congruence].
Qed.

(** A division by zero in the assignment loop comes from the IoU of a box
    with a centroid. *)
Lemma assign_boxes_zero_division (cs boxes : list Box) (st0 : kstate) :
  assign_boxes cs st0 boxes = Err ZeroDivisionError ->
  exists b c, In b boxes /\ In c cs /\ box_iou b c = Err ZeroDivisionError.
Proof.
  revert st0. induction boxes as [|box rest IH]; intros st0 H; simpl in H.
  - discriminate.
  - apply bind_err in H as [H | [st1 [_ H]]].
    + unfold assign_box in H.
      apply bind_err in H as [H | [[d g] [_ H]]].
      * destruct (nearest_from_err _ _ _ _ _ _ H) as [c [Hin Hc]].
        exists box, c. repeat split; auto. left. reflexivity.
      * cbn zeta in H.
        apply bind_err in H as [H | [gs [_ H]]];
          [apply list_modify_err in H; discriminate|].
        apply bind_err in H as [H | [ans [_ H]]];
          [apply list_modify_err in H; discriminate | discriminate].
    + destruct (IH _ H) as [b [c [Hb Hc]]].
      exists b, c. split; [right; exact Hb | exact Hc].
Qed.

Lemma iou_group_err (anchor : Box) (group : list Box) (acc : Q * nat) (e : error) :
  iou_group anchor group acc = Err e ->
  exists b, In b group /\ box_iou b anchor = Err e.
Proof.
  revert acc. induction group as [|b group IH]; intros acc H; simpl in H.
  - discriminate.
  - destruct (box_iou b anchor) as [v|e'] eqn:E; simpl in H.
    + destruct (IH _ H) as [b' [Hin Hb']]. exists b'. split; [right|]; assumption.
    + exists b. split; [left; reflexivity | congruence].
Qed.

Lemma iou_groups_err (gs : list (list Box)) (i : nat) (ans : list Box)
    (acc : Q * nat) (e : error) :
  iou_groups gs i ans acc = Err e ->
  exists j a b, In a ans /\ In b (nth j gs []) /\ box_iou b a = Err e.
Proof.
  revert i acc. induction ans as [|a ans IH]; intros i acc H; simpl in H.
  - discriminate.
  - apply bind_err in H as [H | [acc1 [_ H]]].
    + destruct (iou_group_err _ _ _ _ H) as [b [Hin Hb]].
      exists i, a, b. repeat split; auto. left. reflexivity.
    + destruct (IH _ _ H) as [j [a' [b [Ha [Hb Hab]]]]].
      exists j, a', b. repeat split; auto. right. exact Ha.
Qed.

(** C4, as amended: the average IoU a step returns is the sum of the IoU of
    every (member, final anchor) pair divided by the number [N] of input
    boxes; the step fails with a division by zero whenever the box list is
    empty, and a division by zero means that the list is empty or that a
    call of [box_iou] made by the step (a box against a centroid, or a
    member against an anchor) met a zero union. *)
Theorem avg_iou_and_division_by_zero (n : nat) (boxes cs : list Box) :
  (boxes = [] -> run_k_mean n boxes cs = Err ZeroDivisionError) /\
  (run_k_mean n boxes cs = Err ZeroDivisionError ->
   boxes = [] \/
   exists b c,
     In b boxes /\ box_iou b c = Err ZeroDivisionError /\
     (In c cs \/
      exists st, run_assignment n boxes cs = Ok st /\
                 In c (average_anchors n (groups st) (anchors st)))) /\
  forall ans avg l,
    run_k_mean n boxes cs = Ok (ans, avg, l) ->
    boxes <> [] /\
    exists st,
      run_assignment n boxes cs = Ok st /\
      avg = pair_iou_sum (groups st) ans / inject_Z (Z.of_nat (length boxes)).
Proof.
  split; [|split].
  - intros ->. apply run_k_mean_no_boxes.
  - intros H. unfold run_k_mean in H.
    apply bind_err in H as [H | [st [Est H]]].
    + right. destruct (assign_boxes_zero_division _ _ _ H) as [b [c [Hb [Hc E]]]].
      exists b, c. repeat split; auto.
    + destruct (run_assignment_ok _ _ _ _ Est) as [Hlg [_ [_ [Hg _]]]].
      cbv zeta in H.
      apply bind_err in H as [H | [acc [Eacc H]]].
      * right. destruct (iou_groups_err _ _ _ _ _ H) as [j [a [b [Ha [Hb E]]]]].
        exists b, a. rewrite Hg in Hb. unfold members in Hb.
        apply filter_In in Hb as [Hb _]. repeat split; auto.
        right. exists st. split; [exact Est | exact Ha].
      * left.
        assert (length (average_anchors n (groups st) (anchors st))
                = length (groups st)) as Hlen
          by (rewrite average_anchors_length; symmetry; exact Hlg).
        destruct (iou_groups_ok [] (groups st) _ _ _ Hlen Eacc) as [_ Hc].
        pose proof (assign_boxes_perm _ _ _ _ Est) as Hperm.
        simpl in Hperm. rewrite concat_repeat_nil in Hperm. simpl in Hperm.
        apply Permutation_length in Hperm. rewrite length_concat in Hperm.
        simpl in Hc. rewrite Hperm in Hc.
        unfold average_iou in H. destruct (snd acc) as [|m] eqn:Em.
        -- destruct boxes; [reflexivity | simpl in Hc; lia].
        -- simpl in H. discriminate.
  - intros ans avg l H. split.
    + intros ->. rewrite run_k_mean_no_boxes in H. discriminate.
    + destruct (run_k_mean_ok _ _ _ _ _ _ H) as [st [acc [Est [Eans [Eacc [Eavg _]]]]]].
      exists st. split; [exact Est|].
      destruct (run_assignment_ok _ _ _ _ Est) as [Hlg _].
      assert (length ans = length (groups st)) as Hlen
        by (rewrite Eans, average_anchors_length; symmetry; exact Hlg).
      destruct (iou_groups_ok [] (groups st) _ _ _ Hlen Eacc) as [Hs Hc].
      pose proof (assign_boxes_perm _ _ _ _ Est) as Hperm.
      simpl in Hperm. rewrite concat_repeat_nil in Hperm. simpl in Hperm.
      apply Permutation_length in Hperm. rewrite length_concat in Hperm.
      simpl in Hc, Hs. rewrite Hperm in Hc.
      unfold average_iou in Eavg. destruct (snd acc) as [|m] eqn:Em; [discriminate|].
      rewrite <- Em in Hc, Eavg. inversion Eavg; subst avg.
      rewrite Hc, Hs. reflexivity.
Qed.

Lemma avg_iou_and_division_by_zero_witness :
  exists b c,
    In b [wh 0 0] /\ box_iou b c = Err ZeroDivisionError /\ In c [wh 0 0].
Proof.
  destruct (proj1 (proj2 (avg_iou_and_division_by_zero 1 [wh 0 0] [wh 0 0])) eq_refl)
    as [H | [b [c [Hb [E [Hc | [st [Est Hc]]]]]]]].
  - discriminate H.
  - exists b, c. repeat split; assumption.
  - vm_compute in Est. discriminate Est.
Defined.

(** C4, as stated, fails: a zero-sized box scanned against a zero-sized
    centroid makes [box_iou] divide by zero although the list is not empty. *)
Lemma division_by_zero_with_boxes :
  run_k_mean 1 [wh 0 0] [wh 0 0] = Err ZeroDivisionError /\
  ~ (run_k_mean 1 [wh 0 0] [wh 0 0] = Err ZeroDivisionError <-> [wh 0 0] = []).
Proof.
  split; [reflexivity|]. intros [Himp _]. discriminate (Himp eq_refl).
Qed.

(** ** Empty groups *)

(** C5, as amended: if a group ends up empty, the anchor the step returns at
    that index is the freshly created zero box [Box(0, 0, 0, 0)] of line
    105, whatever the input centroid at that index was. *)
Theorem empty_group_anchor_is_zero (n : nat) (boxes cs ans : list Box)
    (st : kstate) (avg l : Q) (i : nat) :
  run_assignment n boxes cs = Ok st ->
  run_k_mean n boxes cs = Ok (ans, avg, l) ->
  (i < n)%nat ->
  nth i (groups st) [] = [] ->
  nth i ans zero_box = zero_box.
Proof.
  intros Est H Hi Hempty.
  destruct (run_k_mean_ok _ _ _ _ _ _ H) as [st' [_ [Est' [Eans _]]]].
  assert (st' = st) by congruence. subst st'. rewrite Eans.
  destruct (run_assignment_ok _ _ _ _ Est) as [_ [_ [_ [Hg _]]]].
  rewrite (average_anchors_ok _ _ _ _ _ Est Hi), <- Hg, Hempty. reflexivity.
Qed.

Lemma empty_group_anchor_is_zero_witness :
  exists st ans avg l,
    run_assignment 2 [wh (1#2) (1#2)] [wh (1#2) (1#2); wh (1#10) (1#10)] = Ok st /\
    run_k_mean 2 [wh (1#2) (1#2)] [wh (1#2) (1#2); wh (1#10) (1#10)]
      = Ok (ans, avg, l) /\
    nth 1 ans zero_box = zero_box.
Proof.
  eexists. eexists. eexists. eexists.
  split; [vm_compute; reflexivity|]. split; [vm_compute; reflexivity|].
  eapply (empty_group_anchor_is_zero 2 [wh (1#2) (1#2)]
            [wh (1#2) (1#2); wh (1#10) (1#10)]).
  - vm_compute. reflexivity.
  - vm_compute. reflexivity.
  - repeat constructor.
  - reflexivity.
Defined.

(** C5, as stated, fails: with one box equal to the first centroid, the
    group of the second centroid is empty and the second anchor returned is
    the zero box, not the second centroid, whose width is 1/10. *)
Lemma empty_group_anchor_not_centroid :
  exists st ans avg l,
    run_assignment 2 [wh (1#2) (1#2)] [wh (1#2) (1#2); wh (1#10) (1#10)] = Ok st /\
    run_k_mean 2 [wh (1#2) (1#2)] [wh (1#2) (1#2); wh (1#10) (1#10)]
      = Ok (ans, avg, l) /\
    nth 1 (groups st) [] = [] /\
    nth 1 ans zero_box <> nth 1 [wh (1#2) (1#2); wh (1#10) (1#10)] zero_box /\
    ~ w (nth 1 ans zero_box) == w (nth 1 [wh (1#2) (1#2); wh (1#10) (1#10)] zero_box).
Proof.
  eexists. eexists. eexists. eexists.
  split; [vm_compute; reflexivity|]. split; [vm_compute; reflexivity|].
  split; [reflexivity|]. split.
  - vm_compute. discriminate.
  - vm_compute. discriminate.
Qed.

(** ** No group at all *)


(** ** The convergence driver *)

Lemma step_n_shift (k : nat) (boxes cs : list Box) (n : nat) :
  step_n k boxes cs (S n) =
  (r <- run_k_mean k boxes cs ;; step_n k boxes (fst (fst r)) n).
Proof.
  induction n as [|n IH].
  - simpl. destruct (run_k_mean k boxes cs); reflexivity.
  - change (step_n k boxes cs (S (S n)))
      with (r <- step_n k boxes cs (S n) ;; run_k_mean k boxes (fst (fst r))).
    rewrite IH. destruct (run_k_mean k boxes cs) as [r|e]; reflexivity.
Qed.

Lemma k_mean_loop_unfold (fuel k : nat) (boxes : list Box) (eps : Q)
    (a0 : list Box) (l0 : Q) :
  k_mean_loop (S fuel) k boxes eps a0 l0 =
  match run_k_mean k boxes a0 with
  | Err e => Some (Err e)
  | Ok (a1, avg, l1) =>
      if Qltb (Qabs (l0 - l1)) eps then Some (Ok (a1, avg))
      else k_mean_loop fuel k boxes eps a1 l1
  end.
Proof. reflexivity. Qed.

Lemma converged_at_shift (k : nat) (boxes cs : list Box) (eps : Q)
    (r : list Box * Q * Q) (n : nat) :
  run_k_mean k boxes cs = Ok r ->
  (converged_at k boxes cs eps (S n) <-> converged_at k boxes (fst (fst r)) eps n).
Proof.
  intros H. unfold converged_at.
  rewrite (step_n_shift k boxes cs (S n)), (step_n_shift k boxes cs n), H.
  cbn [bind]. reflexivity.
Qed.

(** The loop entered after a seeding step on [cs] returns the result of step
    [n + 1] for the first [n] at which the test passes. *)
Lemma k_mean_loop_spec (fuel k : nat) (boxes : list Box) (eps : Q)
    (cs : list Box) (r0 : list Box * Q * Q) (a : list Box) (avg : Q) :
  run_k_mean k boxes cs = Ok r0 ->
  (k_mean_loop fuel k boxes eps (fst (fst r0)) (snd r0) = Some (Ok (a, avg)) <->
   exists n l,
     (n < fuel)%nat /\
     step_n k boxes cs (S n) = Ok (a, avg, l) /\
     converged_at k boxes cs eps n /\
     forall m, (m < n)%nat -> ~ converged_at k boxes cs eps m).
Proof.
  revert cs r0. induction fuel as [|fuel IH]; intros cs r0 H0.
  - simpl. split; [discriminate | intros [n [l [Hn _]]]; lia].
  - rewrite k_mean_loop_unfold.
    destruct (run_k_mean k boxes (fst (fst r0))) as [[[a1 avg1] l1]|e] eqn:E1.
    + destruct (Qltb (Qabs (snd r0 - l1)) eps) eqn:Hc.
      * (* the test passes at once *)
        assert (converged_at k boxes cs eps 0) as Hconv.
        { exists r0, (a1, avg1, l1). cbn [step_n snd]. rewrite H0. cbn [bind].
          repeat split; auto. apply Qltb_lt. exact Hc. }
        split.
        -- intros H. inversion H; subst. exists 0%nat, l1.
           repeat split; try lia; auto.
           simpl. rewrite H0. cbn [bind]. exact E1.
        -- intros [n [l [Hn [Hs [_ Hfirst]]]]].
           destruct n as [|n]; [|exfalso; apply (Hfirst 0%nat); [lia | exact Hconv]].
           simpl in Hs. rewrite H0 in Hs. cbn [bind] in Hs.
           rewrite E1 in Hs. inversion Hs; subst. reflexivity.
      * (* the test fails: one more round, seeded by this step *)
        assert (~ converged_at k boxes cs eps 0) as Hnot.
        { intros [r1 [r2 [H1 [H2 Hlt]]]]. simpl in H1, H2.
          rewrite H0 in H1, H2. inversion H1; subst r1. cbn [bind] in H2.
          rewrite E1 in H2. inversion H2; subst r2. cbn [snd] in Hlt.
          apply Qltb_lt in Hlt. congruence. }
        specialize (IH (fst (fst r0)) (a1, avg1, l1) E1). simpl in IH.
        rewrite IH. split.
        -- intros [n [l [Hn [Hs [Hconv Hfirst]]]]].
           exists (S n), l. repeat split.
           ++ lia.
           ++ rewrite step_n_shift, H0. exact Hs.
           ++ apply (converged_at_shift _ _ _ _ _ _ H0). exact Hconv.
           ++ intros [|m] Hm; [exact Hnot|].
              rewrite (converged_at_shift _ _ _ _ _ _ H0).
              apply Hfirst. lia.
        -- intros [n [l [Hn [Hs [Hconv Hfirst]]]]].
           destruct n as [|n]; [contradiction|].
           exists n, l. repeat split.
           ++ lia.
           ++ rewrite step_n_shift, H0 in Hs. exact Hs.
           ++ apply (converged_at_shift _ _ _ _ _ _ H0). exact Hconv.
           ++ intros m Hm. rewrite <- (converged_at_shift _ _ _ _ _ _ H0).
              apply Hfirst. lia.
    + split; [discriminate|].
      intros [n [l [_ [Hs _]]]]. exfalso.
      rewrite step_n_shift, H0 in Hs. cbn [bind] in Hs.
      destruct n as [|n].
      * simpl in Hs. congruence.
      * rewrite step_n_shift, E1 in Hs. discriminate.
Qed.

(** C2: the driver returns [(anchors, avg_iou)] exactly when these are the
    anchors and average IoU of some step [n + 1 >= 1] of the chain in which
    step 0 runs on the drawn centroids and every later step runs on the
    anchors of the step before it, the losses of steps [n] and [n + 1]
    differ by less than [loss_convergence], and no earlier pair of
    consecutive losses does; the seeding step alone is never tested. *)
Theorem k_mean_cluster_stops_at_first_convergence (fuel k : nat)
    (gt_boxes : list Box) (centroid_indices : list nat) (eps : Q)
    (cs a : list Box) (avg : Q) :
  pick_centroids gt_boxes centroid_indices = Ok cs ->
  (gt_boxes <> [] \/ k = 0%nat) ->
  (k_mean_cluster fuel k gt_boxes centroid_indices eps = Some (Ok (a, avg)) <->
   exists n l,
     (n < fuel)%nat /\
     step_n k gt_boxes cs (S n) = Ok (a, avg, l) /\
     converged_at k gt_boxes cs eps n /\
     forall m, (m < n)%nat -> ~ converged_at k gt_boxes cs eps m).
Proof.
  intros Hpick Hdraw. unfold k_mean_cluster.
  assert (((length gt_boxes =? 0) && (0 <? k))%nat = false) as ->.
  { destruct Hdraw as [Hne | ->].
    - destruct gt_boxes; [congruence | reflexivity].
    - apply andb_false_r. }
  rewrite Hpick.
  destruct (run_k_mean k gt_boxes cs) as [[[a0 avg0] l0]|e] eqn:E0.
  - apply (k_mean_loop_spec fuel k gt_boxes eps cs (a0, avg0, l0) a avg E0).
  - split; [discriminate|].
    intros [n [l [_ [Hs _]]]]. rewrite step_n_shift, E0 in Hs. discriminate.
Qed.

Lemma k_mean_cluster_stops_at_first_convergence_witness :
  exists a avg,
    k_mean_cluster 5 2
      [wh (1#2) (1#2); wh (1#2) (1#2); wh (1#10) (1#10); wh (1#10) (1#10)]
      [0%nat; 2%nat] (1#100000) = Some (Ok (a, avg)) /\
    exists n l,
      (n < 5)%nat /\
      step_n 2 [wh (1#2) (1#2); wh (1#2) (1#2); wh (1#10) (1#10); wh (1#10) (1#10)]
             [wh (1#2) (1#2); wh (1#10) (1#10)] (S n) = Ok (a, avg, l) /\
      converged_at 2
        [wh (1#2) (1#2); wh (1#2) (1#2); wh (1#10) (1#10); wh (1#10) (1#10)]
        [wh (1#2) (1#2); wh (1#10) (1#10)] (1#100000) n /\
      forall m, (m < n)%nat ->
        ~ converged_at 2
            [wh (1#2) (1#2); wh (1#2) (1#2); wh (1#10) (1#10); wh (1#10) (1#10)]
            [wh (1#2) (1#2); wh (1#10) (1#10)] (1#100000) m.
Proof.
  eexists. eexists. split; [vm_compute; reflexivity|].
  assert ([wh (1#2) (1#2); wh (1#2) (1#2); wh (1#10) (1#10); wh (1#10) (1#10)] <> []
          \/ 2%nat = 0%nat) as Hdraw by (left; discriminate).
  eapply (proj1 (k_mean_cluster_stops_at_first_convergence 5 2
              [wh (1#2) (1#2); wh (1#2) (1#2); wh (1#10) (1#10); wh (1#10) (1#10)]
              [0%nat; 2%nat] (1#100000)
              [wh (1#2) (1#2); wh (1#10) (1#10)] _ _ eq_refl Hdraw)).
  vm_compute. reflexivity.
Defined.

(** ** A single anchor *)

Lemma members_all (cs boxes : list Box) :
  Forall (fun b => group_of cs b = 0%nat) boxes -> members cs 0 boxes = boxes.
Proof.
  intros H. unfold members. induction H as [|b boxes Hb H IH]; simpl.
  - reflexivity.
  - rewrite Hb. simpl. rewrite IH. reflexivity.
Qed.

(** With one group, a step that returns gives the mean box of all the
    boxes, whatever its centroids are: every scan ends on index 0. *)
Lemma run_k_mean_single (boxes cs a : list Box) (avg l : Q) :
  run_k_mean 1 boxes cs = Ok (a, avg, l) -> a = [mean_box boxes].
Proof.
  intros H.
  destruct (run_k_mean_ok _ _ _ _ _ _ H) as [st [_ [Est [Eans _]]]].
  destruct (run_assignment_ok _ _ _ _ Est) as [_ [_ [Hall _]]].
  pose proof (average_anchors_ok 1 boxes cs st 0 Est (le_n 1)) as H0.
  rewrite members_all in H0.
  - rewrite Eans. unfold average_anchors in *. simpl in *. rewrite H0.
    destruct boxes; [|reflexivity].
    rewrite run_k_mean_no_boxes in H. discriminate.
  - rewrite Forall_forall in *. intros b Hin. destruct (Hall b Hin) as [_ Hg]. lia.
Qed.

Lemma Qabs_self_sub (q : Q) : Qabs (q - q) == 0.
Proof.
  assert (q - q == 0) as -> by ring. reflexivity.
Qed.

(** C6, as amended: for [K = 1], a non-empty list of boxes of non-negative
    width and height and a positive threshold, the driver is over after two rounds of the loop at the
    latest.  If the seeding step or the step that follows it raises an
    exception (a division by zero in [box_iou]), so does the driver.
    Otherwise both steps give the single anchor whose width and height are
    the mean width and the mean height of all the boxes, as lines 119-126
    compute them, and the driver returns that anchor at the first or at the
    second convergence test. *)
Theorem single_anchor_is_mean (fuel : nat) (boxes : list Box) (i : nat) (eps : Q) :
  Forall nonneg boxes ->
  (i < length boxes)%nat -> 0 < eps -> (2 <= fuel)%nat ->
  match run_k_mean 1 boxes [nth i boxes zero_box] with
  | Err e => k_mean_cluster fuel 1 boxes [i] eps = Some (Err e)
  | Ok (a0, _, _) =>
      a0 = [mean_box boxes] /\
      match run_k_mean 1 boxes [mean_box boxes] with
      | Err e => k_mean_cluster fuel 1 boxes [i] eps = Some (Err e)
      | Ok (a1, avg1, _) =>
          a1 = [mean_box boxes] /\
          k_mean_cluster fuel 1 boxes [i] eps
          = Some (Ok ([mean_box boxes], avg1))
      end
  end.
Proof.
  intros _ Hi Heps Hfuel.
  unfold k_mean_cluster.
  assert (((length boxes =? 0) && (0 <? 1))%nat = false) as ->
    by (destruct boxes; [simpl in Hi; lia | reflexivity]).
  simpl pick_centroids.
  rewrite (nth_error_nth' boxes zero_box Hi). cbn [bind].
  destruct (run_k_mean 1 boxes [nth i boxes zero_box]) as [[[a0 avg0] l0]|e] eqn:E0;
    [|reflexivity].
  pose proof (run_k_mean_single _ _ _ _ _ E0) as ->.
  split; [reflexivity|].
  destruct fuel as [|[|fuel]]; try lia.
  rewrite k_mean_loop_unfold.
  destruct (run_k_mean 1 boxes [mean_box boxes]) as [[[a1 avg1] l1]|e] eqn:E1;
    [|reflexivity].
  pose proof (run_k_mean_single _ _ _ _ _ E1) as ->.
  split; [reflexivity|].
  destruct (Qltb (Qabs (l0 - l1)) eps); [reflexivity|].
  rewrite k_mean_loop_unfold, E1.
  assert (Qltb (Qabs (l1 - l1)) eps = true) as ->.
  { apply Qltb_lt. rewrite Qabs_self_sub. exact Heps. }
  reflexivity.
Qed.

Lemma single_anchor_is_mean_witness :
  exists avg,
    k_mean_cluster 2 1 [wh 1 1; wh (1#2) (1#2)] [0%nat] (1#100000)
    = Some (Ok ([mean_box [wh 1 1; wh (1#2) (1#2)]], avg)).
Proof.
  assert (Forall nonneg [wh 1 1; wh (1#2) (1#2)]) as Hnn
    by (repeat constructor; vm_compute; discriminate).
  pose proof (single_anchor_is_mean 2 [wh 1 1; wh (1#2) (1#2)] 0 (1#100000)
                Hnn (le_S 1 1 (le_n 1)) eq_refl (le_n 2)) as H.
  destruct (run_k_mean 1 [wh 1 1; wh (1#2) (1#2)]
              [nth 0 [wh 1 1; wh (1#2) (1#2)] zero_box])
    as [[[a0 avg0] l0]|e] eqn:E0; [|vm_compute in E0; discriminate E0].
  destruct H as [_ H].
  destruct (run_k_mean 1 [wh 1 1; wh (1#2) (1#2)]
              [mean_box [wh 1 1; wh (1#2) (1#2)]])
    as [[[a1 avg1] l1]|e] eqn:E1; [|vm_compute in E1; discriminate E1].
  destruct H as [_ H]. exists avg1. exact H.
Defined.

(** With the threshold 0 no test can pass: a single box, seeded by itself,
    is its own mean and the loop runs for ever. *)
Lemma single_anchor_zero_threshold (fuel : nat) :
  k_mean_loop fuel 1 [wh 1 1] 0 [wh 1 1] 0 = None.
Proof.
  induction fuel as [|fuel IH]; [reflexivity|].
  rewrite k_mean_loop_unfold.
  assert (run_k_mean 1 [wh 1 1] [wh 1 1] = Ok ([wh 1 1], 1, 0)) as ->
    by (vm_compute; reflexivity).
  assert (Qltb (Qabs (0 - 0)) 0 = false) as -> by reflexivity.
  exact IH.
Qed.

(** C6, as stated, fails: with the boxes (1, 1) and (1/2, 1/2) seeded by the
    first one, the seeding loss is 3/4 and the loss of the next step, taken
    against the mean box (3/4, 3/4), is 143/144; their difference is not
    below the threshold 1/100000, so the first test does not stop the loop
    (one round leaves it running); the second test does.  Besides, a
    zero-sized box makes the seeding step divide by zero, and with the
    threshold 0 the driver never returns. *)
Lemma single_anchor_not_at_first_check :
  ~ converged_at 1 [wh 1 1; wh (1#2) (1#2)] [wh 1 1] (1#100000) 0 /\
  k_mean_cluster 1 1 [wh 1 1; wh (1#2) (1#2)] [0%nat] (1#100000) = None /\
  converged_at 1 [wh 1 1; wh (1#2) (1#2)] [wh 1 1] (1#100000) 1 /\
  (exists a avg l, step_n 1 [wh 1 1; wh (1#2) (1#2)] [wh 1 1] 0 = Ok (a, avg, l)
                   /\ l == 3#4) /\
  (exists a avg l, step_n 1 [wh 1 1; wh (1#2) (1#2)] [wh 1 1] 1 = Ok (a, avg, l)
                   /\ l == 143#144) /\
  k_mean_cluster 2 1 [wh 0 0] [0%nat] (1#100000) = Some (Err ZeroDivisionError) /\
  (forall fuel, k_mean_cluster fuel 1 [wh 1 1] [0%nat] 0 = None).
Proof.
  split; [|split; [|split; [|split; [|split; [|split]]]]].
  - intros [r1 [r2 [H1 [H2 Hlt]]]].
    vm_compute in H1, H2. inversion H1; subst r1. inversion H2; subst r2.
    vm_compute in Hlt. discriminate.
  - vm_compute. reflexivity.
  - eexists. eexists. split; [vm_compute; reflexivity|].
    split; [vm_compute; reflexivity|]. vm_compute. reflexivity.
  - eexists. eexists. eexists. split; [vm_compute; reflexivity|].
    vm_compute. reflexivity.
  - eexists. eexists. eexists. split; [vm_compute; reflexivity|].
    vm_compute. reflexivity.
  - vm_compute. reflexivity.
  - intros fuel. unfold k_mean_cluster.
    change (pick_centroids [wh 1 1] [0%nat]) with (Ok [wh 1 1]).
    cbv iota. cbn [length Nat.eqb Nat.ltb Nat.leb andb].
    assert (run_k_mean 1 [wh 1 1] [wh 1 1] = Ok ([wh 1 1], 1, 0)) as ->
      by (vm_compute; reflexivity).
    apply single_anchor_zero_threshold.
Qed.

(** ** Zero-sized centroids *)

(** Whenever [box_iou] of a box of non-negative size and a zero-sized
    centroid returns, it returns 0, and the distance is 1. *)
Lemma box_iou_zero_centroid (box c : Box) (v : Q) :
  nonneg box -> w c == 0 -> h c == 0 -> box_iou box c = Ok v ->
  v == 0 /\ 1 - v == 1.
Proof.
  intros [Hbw _] Hw Hh E. unfold box_iou in E.
  destruct (Qeq_bool (box_union box c) 0); [discriminate|].
  inversion E. subst v. clear E.
  assert (box_intersection box c == 0) as Hi.
  { unfold box_intersection.
    rewrite (Q.min_r (w box) (w c)) by (rewrite Hw; exact Hbw).
    rewrite Hw. ring. }
  assert (box_intersection box c / box_union box c == 0) as Hv.
  { unfold Qdiv. rewrite Hi. ring. }
  split; [exact Hv | rewrite Hv; ring].
Qed.

Lemma distances_nth (box : Box) (cs : list Box) (ds : list Q) (j : nat) (c : Box) :
  distances box cs = Ok ds -> nth_error cs j = Some c ->
  exists v, box_iou box c = Ok v /\ nth_error ds j = Some (1 - v).
Proof.
  revert ds j. induction cs as [|c0 cs IH]; intros ds j H Hj.
  - destruct j; discriminate.
  - simpl in H. apply bind_ok in H as [v [Ev H]].
    apply bind_ok in H as [ds' [Eds H]]. inversion H; subst.
    destruct j as [|j]; simpl in Hj.
    + inversion Hj; subst. exists v. split; [exact Ev | reflexivity].
    + apply (IH _ _ Eds Hj).
Qed.

(** A scan never ends on a zero-sized centroid that is not at index 0: its
    distance, 1, is not below the bound the scan starts from. *)
Lemma scan_avoids_zero_centroid (box : Box) (cs : list Box) (i : nat) (c : Box)
    (d : Q) (g : nat) :
  nearest box cs = Ok (d, g) ->
  nonneg box -> nth_error cs i = Some c -> w c == 0 -> h c == 0 ->
  i <> 0%nat ->
  (exists v, box_iou box c = Ok v /\ v == 0 /\ 1 - v == 1) /\ g <> i.
Proof.
  intros Hn Hb Hi Hw Hh Hne.
  unfold nearest in Hn.
  destruct (nearest_from_spec _ _ _ _ _ _ _ Hn) as [ds [Hds [_ [_ Hcase]]]].
  destruct (distances_nth _ _ _ _ _ Hds Hi) as [v [Ev Hv]].
  destruct (box_iou_zero_centroid box c v Hb Hw Hh Ev) as [Hzero Hone].
  split; [exists v; auto|].
  intros Heq. subst g.
  destruct Hcase as [[Hi0 _] | [_ [Hlt [Hnth _]]]].
  - contradiction.
  - rewrite Nat.sub_0_r in Hnth. rewrite Hv in Hnth. inversion Hnth. subst d.
    lra.
Qed.

Lemma members_none (cs boxes : list Box) (i : nat) :
  Forall (fun b => group_of cs b <> i) boxes -> members cs i boxes = [].
Proof.
  intros H. unfold members. induction H as [|b boxes Hb H IH]; simpl.
  - reflexivity.
  - apply Nat.eqb_neq in Hb. rewrite Hb. exact IH.
Qed.

(** In a completed step over positive boxes, the group of a zero-sized
    centroid that is not at index 0 is empty and its anchor is the zero box
    again. *)
Lemma zero_centroid_step (n : nat) (boxes cs ans : list Box) (st : kstate)
    (avg l : Q) (i : nat) (c : Box) :
  run_assignment n boxes cs = Ok st ->
  run_k_mean n boxes cs = Ok (ans, avg, l) ->
  Forall positive boxes ->
  (i < n)%nat -> nth_error cs i = Some c -> w c == 0 -> h c == 0 ->
  i <> 0%nat ->
  (forall box, In box boxes ->
     exists v, box_iou box c = Ok v /\ v == 0 /\ 1 - v == 1) /\
  nth i (groups st) [] = [] /\
  nth i ans zero_box = zero_box.
Proof.
  intros Est Erun Hb Hi Hc Hw Hh Hne.
  destruct (run_assignment_ok _ _ _ _ Est) as [_ [_ [Hall [Hg _]]]].
  rewrite Forall_forall in Hb, Hall.
  assert (forall b, In b boxes ->
            (exists v, box_iou b c = Ok v /\ v == 0 /\ 1 - v == 1) /\
            group_of cs b <> i) as Hscan.
  { intros b Hin. destruct (Hall b Hin) as [Hn _].
    apply (scan_avoids_zero_centroid b cs i c _ _ Hn
             (positive_nonneg _ (Hb b Hin)) Hc Hw Hh Hne). }
  assert (nth i (groups st) [] = []) as Hempty.
  { rewrite Hg. apply members_none. apply Forall_forall.
    intros b Hin. apply (Hscan b Hin). }
  split; [|split].
  - intros box Hin. apply (Hscan box Hin).
  - exact Hempty.
  - destruct (run_k_mean_ok _ _ _ _ _ _ Erun) as [st' [_ [Est' [Eans _]]]].
    assert (st' = st) by congruence. subst st'. rewrite Eans.
    rewrite (average_anchors_ok _ _ _ _ _ Est Hi), <- Hg, Hempty. reflexivity.
Qed.

(** Along the chain of steps of a run, a zero anchor that is not at index 0
    stays a zero anchor. *)
Lemma zero_anchor_persists (k : nat) (boxes cs : list Box) (i m n : nat)
    (r r' : list Box * Q * Q) :
  Forall positive boxes -> (i < k)%nat -> i <> 0%nat -> (m <= n)%nat ->
  step_n k boxes cs m = Ok r -> nth i (fst (fst r)) zero_box = zero_box ->
  step_n k boxes cs n = Ok r' -> nth i (fst (fst r')) zero_box = zero_box.
Proof.
  intros Hb Hi Hne Hmn Hm Hzero. revert r'.
  induction Hmn as [|n Hmn IH]; intros r' Hn.
  - congruence.
  - simpl in Hn. apply bind_ok in Hn as [r1 [E1 Hn]].
    specialize (IH r1 E1).
    assert (exists cs', run_k_mean k boxes cs' = Ok r1) as [cs' Hprev].
    { destruct n as [|n]; simpl in E1.
      - exists cs. exact E1.
      - apply bind_ok in E1 as [r2 [_ E1]]. eexists. exact E1. }
    destruct r1 as [[a1 v1] l1]. destruct r' as [[a' v'] l']. simpl in *.
    assert (length a1 = k) as Hlen.
    { destruct (run_k_mean_ok _ _ _ _ _ _ Hprev) as [st1 [_ [_ [Eans _]]]].
      rewrite Eans. apply average_anchors_length. }
    destruct (run_k_mean_ok _ _ _ _ _ _ Hn) as [st [_ [Est _]]].
    assert (nth_error a1 i = Some zero_box) as Hnth.
    { rewrite <- IH. apply nth_error_nth'. lia. }
    apply (zero_centroid_step k boxes a1 a' st v' l' i zero_box Est Hn Hb Hi Hnth);
      try reflexivity.
    exact Hne.
Qed.

(** C10, as amended: if a centroid that is not the first one (index other
    than 0) has width 0 and height 0 and every box has positive width and
    height, then in a completed step that centroid's IoU with every box is
    0, its distance is 1, its group stays empty and its output anchor is the
    zero box again.  Hence, along the chain of steps of the driver, an
    anchor at an index other than 0 that is the zero box at some step is the
    zero box at every later step, and the driver does return a zero anchor
    on some inputs. *)
Theorem zero_centroid_stays_zero :
  (forall (n : nat) (boxes cs ans : list Box) (st : kstate) (avg l : Q)
          (i : nat) (c : Box),
     run_assignment n boxes cs = Ok st ->
     run_k_mean n boxes cs = Ok (ans, avg, l) ->
     Forall positive boxes ->
     (i < n)%nat -> nth_error cs i = Some c -> w c == 0 -> h c == 0 ->
     i <> 0%nat ->
     (forall box, In box boxes ->
        exists v, box_iou box c = Ok v /\ v == 0 /\ 1 - v == 1) /\
     nth i (groups st) [] = [] /\
     nth i ans zero_box = zero_box) /\
  (forall (k : nat) (boxes cs : list Box) (i m n : nat) (r r' : list Box * Q * Q),
     Forall positive boxes -> (i < k)%nat -> i <> 0%nat -> (m <= n)%nat ->
     step_n k boxes cs m = Ok r -> nth i (fst (fst r)) zero_box = zero_box ->
     step_n k boxes cs n = Ok r' -> nth i (fst (fst r')) zero_box = zero_box) /\
  (exists a avg,
     k_mean_cluster 1 2 [wh (1#2) (1#2); wh (1#2) (1#2)] [0%nat; 1%nat] (1#100000)
     = Some (Ok ([a; zero_box], avg))).
Proof.
  split; [|split].
  - intros. eapply zero_centroid_step; eassumption.
  - intros. eapply zero_anchor_persists; eassumption.
  - eexists. eexists. vm_compute. reflexivity.
Qed.

Lemma zero_centroid_stays_zero_witness :
  exists st ans avg l,
    run_assignment 2 [wh (1#2) (1#2)] [wh (1#2) (1#2); wh 0 0] = Ok st /\
    run_k_mean 2 [wh (1#2) (1#2)] [wh (1#2) (1#2); wh 0 0] = Ok (ans, avg, l) /\
    nth 1 (groups st) [] = [] /\
    nth 1 ans zero_box = zero_box.
Proof.
  eexists. eexists. eexists. eexists.
  split; [vm_compute; reflexivity|]. split; [vm_compute; reflexivity|].
  eapply (proj1 zero_centroid_stays_zero 2%nat [wh (1#2) (1#2)]
            [wh (1#2) (1#2); wh 0 0] _ _ _ _ 1%nat (wh 0 0)).
  - vm_compute. reflexivity.
  - vm_compute. reflexivity.
  - repeat constructor.
  - apply le_n.
  - reflexivity.
  - reflexivity.
  - reflexivity.
  - discriminate.
Defined.

(** C10, as stated, fails: a single zero-sized centroid (index 0) takes the
    positive box (1, 1) by the default index of the scan, so its group is
    not empty and its output anchor is (1, 1), not (0, 0). *)
Lemma zero_centroid_at_index_0_takes_boxes :
  exists st ans avg l,
    run_assignment 1 [wh 1 1] [wh 0 0] = Ok st /\
    run_k_mean 1 [wh 1 1] [wh 0 0] = Ok (ans, avg, l) /\
    positive (wh 1 1) /\ w (wh 0 0) == 0 /\ h (wh 0 0) == 0 /\
    box_iou (wh 1 1) (wh 0 0) = Ok 0 /\
    nth 0 (groups st) [] = [wh 1 1] /\
    w (nth 0 ans zero_box) == 1 /\ h (nth 0 ans zero_box) == 1 /\
    nth 0 ans zero_box <> zero_box.
Proof.
  eexists. eexists. eexists. eexists.
  split; [vm_compute; reflexivity|]. split; [vm_compute; reflexivity|].
  repeat split; try (vm_compute; reflexivity).
  vm_compute. discriminate.
Qed.

(** ** The driver on valid input *)


(** The index a scan ends on is its starting index or that of a centroid. *)
Lemma nearest_from_index (box : Box) (cs : list Box) (i : nat) (d0 : Q) (g0 : nat)
    (d : Q) (g : nat) :
  nearest_from box cs i d0 g0 = Ok (d, g) ->
  g = g0 \/ (i <= g < i + length cs)%nat.
Proof.
  revert i d0 g0. induction cs as [|c cs IH]; intros i d0 g0 H; simpl in H.
  - inversion H. left. reflexivity.
  - apply bind_ok in H as [v [_ H]].
    destruct (Qltb (1 - v) d0); apply IH in H; simpl; lia.
Qed.

(** With at least one group and no more centroids than groups, the
    assignment loop cannot index out of range: its only exception is the
    division by zero of [box_iou]. *)
Lemma assign_boxes_error_kind (cs boxes : list Box) (st0 : kstate) (e : error) :
  (1 <= length (groups st0))%nat -> (length cs <= length (groups st0))%nat ->
  length (anchors st0) = length (groups st0) ->
  assign_boxes cs st0 boxes = Err e -> e = ZeroDivisionError.
Proof.
  revert st0. induction boxes as [|box rest IH]; intros st0 Hn Hlen Hla H;
    simpl in H.
  - discriminate.
  - destruct (assign_box cs st0 box) as [st1|e1] eqn:E1; simpl in H.
    + destruct (assign_box_ok _ _ _ _ E1) as [_ [_ [Hlg [Hla' _]]]].
      apply (IH st1); congruence.
    + inversion H; subst e1. clear H. unfold assign_box in E1.
      apply bind_err in E1 as [E1 | [[d g] [En E1]]].
      * destruct (nearest_from_err _ _ _ _ _ _ E1) as [c [_ Hc]].
        apply (box_iou_err _ _ _ Hc).
      * exfalso. cbn zeta in E1.
        pose proof (nearest_from_index _ _ _ _ _ _ _ En) as Hg.
        destruct (list_modify_lt (fun g0 => g0 ++ [box]) g (groups st0)) as [gs Eg];
          [lia|].
        destruct (list_modify_lt (accumulate box) g (anchors st0)) as [ans Ea];
          [lia|].
        rewrite Eg in E1. cbn [bind] in E1. rewrite Ea in E1. discriminate.
Qed.

Lemma run_k_mean_error_kind (n : nat) (boxes cs : list Box) (e : error) :
  (1 <= n)%nat -> (length cs <= n)%nat ->
  run_k_mean n boxes cs = Err e -> e = ZeroDivisionError.
Proof.
  intros Hn Hlen H. unfold run_k_mean in H.
  apply bind_err in H as [H | [st [_ H]]].
  - apply (assign_boxes_error_kind cs boxes (init_state n) e);
      simpl; rewrite ?repeat_length; auto.
  - cbv zeta in H. apply bind_err in H as [H | [acc [_ H]]].
    + destruct (iou_groups_err _ _ _ _ _ H) as [j [a [b [_ [_ E]]]]].
      apply (box_iou_err _ _ _ E).
    + apply bind_err in H as [H | [avg [_ H]]]; [|discriminate].
      unfold average_iou in H. destruct (snd acc); congruence.
Qed.









(** ** An input on which the driver never returns *)







(** The groups the boxes fall in, in input order: under the drawn centroids,
    under the anchors of the seeding step, and under the anchors of the step
    after it.  The first and the third coincide: boxes 0 and 5, the two of
    extreme aspect ratio, move to and fro. *)
Lemma cycle_assignments :
  map (group_of cycle_centroids) cycle_boxes
    = [2; 1; 1; 0; 0; 2; 1; 0; 2; 1; 1]%nat /\
  map (group_of (fst (fst cycle_r0))) cycle_boxes
    = [1; 1; 1; 0; 0; 0; 1; 0; 2; 1; 1]%nat /\
  map (group_of (fst (fst cycle_r1))) cycle_boxes
    = [2; 1; 1; 0; 0; 2; 1; 0; 2; 1; 1]%nat /\
  fst (fst cycle_r2) = fst (fst cycle_r0).
Proof. repeat split; vm_compute; reflexivity. Qed.

(** ** Sums over the boxes *)

Lemma fold_left_total (f : Box -> Q) (l : list Box) (s0 : Q) :
  fold_left (fun s b => s + f b) l s0 == s0 + total f l.
Proof.
  revert s0. induction l as [|b l IH]; intros s0; simpl.
  - ring.
  - rewrite IH. ring.
Qed.

Lemma total_bounds (f : Box -> Q) (lo hi : Q) (l : list Box) :
  (forall b, In b l -> lo <= f b /\ f b <= hi) ->
  inject_Z (Z.of_nat (length l)) * lo <= total f l /\
  total f l <= inject_Z (Z.of_nat (length l)) * hi.
Proof.
  induction l as [|b l IH]; intros H.
  - change (inject_Z (Z.of_nat (length (@nil Box)))) with 0.
    change (total f []) with 0.
    split; rewrite Qmult_0_l; apply Qle_refl.
  - destruct IH as [IH1 IH2]; [intros b' Hb'; apply H; right; exact Hb'|].
    destruct (H b (or_introl eq_refl)) as [H1 H2].
    change (length (b :: l)) with (S (length l)).
    rewrite inject_nat_succ. simpl total. split; lra.
Qed.

(** The groups of a completed assignment, as a list. *)
Lemma groups_perm (n : nat) (boxes cs : list Box) (st : kstate) :
  run_assignment n boxes cs = Ok st -> Permutation (concat (groups st)) boxes.
Proof.
  intros H. pose proof (assign_boxes_perm _ _ _ _ H) as Hperm.
  simpl in Hperm. rewrite concat_repeat_nil in Hperm. exact Hperm.
Qed.

(** ** The loss of a step *)

Lemma distances_nth_inv (box : Box) (cs : list Box) (ds : list Q) (j : nat) (d : Q) :
  distances box cs = Ok ds -> nth_error ds j = Some d ->
  exists c v, nth_error cs j = Some c /\ box_iou box c = Ok v /\ d = 1 - v.
Proof.
  revert ds j. induction cs as [|c0 cs IH]; intros ds j H Hj.
  - simpl in H. inversion H; subst. destruct j; discriminate.
  - simpl in H. apply bind_ok in H as [v [Ev H]].
    apply bind_ok in H as [ds' [Eds H]]. inversion H; subst.
    destruct j as [|j]; simpl in Hj.
    + inversion Hj; subst. exists c0, v. repeat split; auto.
    + apply (IH _ _ Eds Hj).
Qed.





(** ** Index errors *)

(** An [IndexError] of the assignment loop comes from a scan that ended on
    an index with no group. *)
Lemma assign_boxes_index_error (cs boxes : list Box) (st0 : kstate) :
  length (anchors st0) = length (groups st0) ->
  assign_boxes cs st0 boxes = Err IndexError ->
  exists b d g,
    In b boxes /\ nearest b cs = Ok (d, g) /\ (length (groups st0) <= g)%nat.
Proof.
  revert st0. induction boxes as [|box rest IH]; intros st0 Hlen H; simpl in H.
  - discriminate.
  - destruct (assign_box cs st0 box) as [st1|e1] eqn:E1; simpl in H.
    + destruct (assign_box_ok _ _ _ _ E1) as [_ [_ [Hlg [Hla _]]]].
      destruct (IH st1) as [b [d [g [Hin [Hn Hg]]]]]; [congruence | exact H|].
      exists b, d, g. split; [right; exact Hin|]. split; [exact Hn | lia].
    + inversion H; subst e1. clear H. unfold assign_box in E1.
      apply bind_err in E1 as [E1 | [[d g] [En E1]]].
      * exfalso. destruct (nearest_from_err _ _ _ _ _ _ E1) as [c [_ Hc]].
        apply box_iou_err in Hc. discriminate.
      * exists box, d, g. split; [left; reflexivity|]. split; [exact En|].
        cbn zeta in E1.
        destruct (Nat.lt_ge_cases g (length (groups st0))) as [Hlt | Hge];
          [exfalso | exact Hge].
        destruct (list_modify_lt (fun g0 => g0 ++ [box]) g (groups st0) Hlt)
          as [gs Eg].
        destruct (list_modify_lt (accumulate box) g (anchors st0)) as [ans Ea];
          [lia|].
        rewrite Eg in E1. cbn [bind] in E1. rewrite Ea in E1. discriminate.
Qed.

(** X2: a step raises [IndexError] only when the scan of some box ends on
    an index that is not below [n_anchors]; when some box's scan ends on
    such an index the step does not return; and with at least one group and
    no more centroids than groups it never raises [IndexError]. *)
Theorem index_error_only_from_group_out_of_range (n : nat) (boxes cs : list Box) :
  (run_k_mean n boxes cs = Err IndexError ->
   exists b d g, In b boxes /\ nearest b cs = Ok (d, g) /\ (n <= g)%nat) /\
  ((exists b d g, In b boxes /\ nearest b cs = Ok (d, g) /\ (n <= g)%nat) ->
   forall r, run_k_mean n boxes cs <> Ok r) /\
  ((1 <= n)%nat -> (length cs <= n)%nat ->
   run_k_mean n boxes cs <> Err IndexError).
Proof.
  split; [|split].
  - intros H. unfold run_k_mean in H.
    apply bind_err in H as [H | [st [_ H]]].
    + pose proof (assign_boxes_index_error cs boxes (init_state n)) as Hex.
      simpl in Hex. rewrite !repeat_length in Hex. apply Hex; auto.
    + exfalso. cbv zeta in H. apply bind_err in H as [H | [acc [_ H]]].
      * destruct (iou_groups_err _ _ _ _ _ H) as [j [a [b [_ [_ E]]]]].
        apply box_iou_err in E. discriminate.
      * apply bind_err in H as [H | [avg [_ H]]]; [|discriminate].
        unfold average_iou in H. destruct (snd acc); discriminate.
  - intros [b [d [g [Hin [Hn Hg]]]]] [[ans avg] l] H.
    destruct (run_k_mean_ok _ _ _ _ _ _ H) as [st [_ [Est _]]].
    destruct (run_assignment_ok _ _ _ _ Est) as [_ [_ [Hall _]]].
    rewrite Forall_forall in Hall. destruct (Hall b Hin) as [Hn' Hlt].
    rewrite Hn in Hn'. inversion Hn'. lia.
  - intros Hn Hlen H.
    apply (run_k_mean_error_kind n boxes cs IndexError Hn Hlen) in H.
    discriminate.
Qed.

Lemma index_error_only_from_group_out_of_range_witness :
  exists b d g,
    In b [wh (1#10) (1#10)] /\
    nearest b [wh (1#2) (1#2); wh (1#10) (1#10)] = Ok (d, g) /\ (1 <= g)%nat.
Proof.
  apply (proj1 (index_error_only_from_group_out_of_range 1 [wh (1#10) (1#10)]
                  [wh (1#2) (1#2); wh (1#10) (1#10)])).
  vm_compute. reflexivity.
Defined.

(** ** Anchors as means *)

(** Every anchor a step returns, with its group. *)
Lemma anchors_with_groups (n : nat) (boxes cs ans : list Box) (st : kstate)
    (avg l : Q) :
  run_assignment n boxes cs = Ok st ->
  run_k_mean n boxes cs = Ok (ans, avg, l) ->
  Forall2 (fun a g => match g with
                      | [] => a = zero_box
                      | _ :: _ => a = mean_box g
                      end) ans (groups st).
Proof.
  intros Est H.
  destruct (run_k_mean_ok _ _ _ _ _ _ H) as [st' [_ [Est' [Eans _]]]].
  assert (st' = st) by congruence. subst st'.
  destruct (run_assignment_ok _ _ _ _ Est) as [Hlg [_ [_ [Hg _]]]].
  apply (Forall2_of_nth _ zero_box []).
  - rewrite Eans, average_anchors_length. symmetry. exact Hlg.
  - intros i Hi. rewrite Eans, average_anchors_length in Hi.
    rewrite Eans, (average_anchors_ok _ _ _ _ _ Est Hi), Hg.
    destruct (members cs i boxes); reflexivity.
Qed.

Lemma mean_box_bounds (f : Box -> Q) (g : list Box) :
  g <> [] -> (forall b, In b g -> 0 <= f b /\ f b <= 1) ->
  0 <= fold_left (fun s b => s + f b) g 0 / inject_Z (Z.of_nat (length g)) /\
  fold_left (fun s b => s + f b) g 0 / inject_Z (Z.of_nat (length g)) <= 1.
Proof.
  intros Hne Hb.
  assert (0 < inject_Z (Z.of_nat (length g))) as Hn
    by (apply inject_nat_pos; destruct g; [congruence | simpl; lia]).
  destruct (total_bounds f 0 1 g Hb) as [H0 H1].
  pose proof (fold_left_total f g 0) as Hs.
  split.
  - apply Qle_shift_div_l; [exact Hn|]. rewrite Hs. lra.
  - apply Qle_shift_div_r; [exact Hn|]. rewrite Hs. lra.
Qed.

(** X3: when the width and the height of every input box lie between 0 and
    1 (sizes relative to the image), every anchor a step returns is a box
    at the origin whose width and height lie between 0 and 1 again. *)
Theorem anchors_within_unit_square (n : nat) (boxes cs ans : list Box)
    (avg l : Q) :
  run_k_mean n boxes cs = Ok (ans, avg, l) ->
  (forall b, In b boxes -> 0 <= w b /\ w b <= 1) ->
  (forall b, In b boxes -> 0 <= h b /\ h b <= 1) ->
  Forall (fun a => x a = 0 /\ y a = 0 /\
                   0 <= w a /\ w a <= 1 /\ 0 <= h a /\ h a <= 1) ans.
Proof.
  intros H Hw Hh.
  destruct (run_k_mean_ok _ _ _ _ _ _ H) as [st [_ [Est _]]].
  pose proof (anchors_with_groups _ _ _ _ _ _ _ Est H) as HF.
  pose proof (groups_perm _ _ _ _ Est) as Hperm.
  assert (forall g b, In g (groups st) -> In b g -> In b boxes) as Hsub.
  { intros g b Hg Hbg. apply (Permutation_in _ Hperm).
    apply in_concat. exists g. split; assumption. }
  clear H Est Hperm. induction HF as [|a g ans gs Hag HF IH]; constructor.
  - destruct g as [|b g].
    + subst a. simpl. repeat split; apply Qle_refl || discriminate.
    + subst a. unfold mean_box, sum_w, sum_h. simpl x. simpl y. simpl w. simpl h.
      destruct (mean_box_bounds w (b :: g)) as [W0 W1];
        [discriminate | intros b' Hb'; apply Hw, (Hsub (b :: g)); simpl; auto|].
      destruct (mean_box_bounds h (b :: g)) as [H0 H1];
        [discriminate | intros b' Hb'; apply Hh, (Hsub (b :: g)); simpl; auto|].
      repeat split; assumption.
  - apply IH. intros g' b' Hg' Hb'. apply (Hsub g' b'); [right|]; assumption.
Qed.

Lemma anchors_within_unit_square_witness :
  exists ans avg l,
    run_k_mean 2 [wh 1 1; wh (1#2) (1#2)] [wh 1 1; wh 1 1] = Ok (ans, avg, l) /\
    Forall (fun a => x a = 0 /\ y a = 0 /\
                     0 <= w a /\ w a <= 1 /\ 0 <= h a /\ h a <= 1) ans.
Proof.
  eexists. eexists. eexists. split; [vm_compute; reflexivity|].
  eapply (anchors_within_unit_square 2 [wh 1 1; wh (1#2) (1#2)] [wh 1 1; wh 1 1]).
  - vm_compute. reflexivity.
  - intros b [<- | [<- | []]]; split; vm_compute; discriminate.
  - intros b [<- | [<- | []]]; split; vm_compute; discriminate.
Defined.

(** ** The label reader *)

Lemma split_comma_length (s : string) :
  length (split_comma s) = S (count_commas s).
Proof.
  induction s as [|c s IH]; simpl.
  - reflexivity.
  - destruct (Ascii.eqb c ","%char); simpl.
    + rewrite IH. reflexivity.
    + destruct (split_comma s) as [|f fs]; simpl in *; [discriminate | exact IH].
Qed.

Lemma float_of_int_cases (z : Z) :
  (beyond_double z /\ float_of_int z = Err OverflowError) \/
  (~ beyond_double z /\ float_of_int z = Ok (inject_Z z)).
Proof.
  unfold float_of_int, beyond_double.
  destruct (Z.leb_spec (2 ^ 1024 - 2 ^ 970) (Z.abs z)) as [Hle | Hlt].
  - left. split; [exact Hle | reflexivity].
  - right. split; [apply Z.lt_nge; exact Hlt | reflexivity].
Qed.

Lemma Qeq_bool_inject_Z (z : Z) :
  Qeq_bool (inject_Z z) 0 = true <-> z = 0%Z.
Proof.
  rewrite Qeq_bool_iff. unfold Qeq. simpl. lia.
Qed.

Lemma zero_not_beyond_double : ~ beyond_double 0.
Proof.
  unfold beyond_double. change (Z.abs 0) with 0%Z.
  assert (2 ^ 970 < 2 ^ 1024)%Z by (apply Z.pow_lt_mono_r; lia). lia.
Qed.

(** What [scale_rel_box] does, by the image width and height. *)
Lemma scale_rel_box_cases (W H C : Z) (box : Box) :
  (beyond_double W /\ scale_rel_box (W, H, C) box = Err OverflowError) \/
  (W = 0%Z /\ scale_rel_box (W, H, C) box = Err ZeroDivisionError) \/
  (~ beyond_double W /\ W <> 0%Z /\ beyond_double H /\
   scale_rel_box (W, H, C) box = Err OverflowError) \/
  (~ beyond_double W /\ W <> 0%Z /\ H = 0%Z /\
   scale_rel_box (W, H, C) box = Err ZeroDivisionError) \/
  (~ beyond_double W /\ W <> 0%Z /\ ~ beyond_double H /\ H <> 0%Z /\
   scale_rel_box (W, H, C) box
   = Ok (x box * (1 / inject_Z W), y box * (1 / inject_Z H),
         w box * (1 / inject_Z W), h box * (1 / inject_Z H))).
Proof.
  unfold scale_rel_box.
  destruct (float_of_int_cases W) as [[BW ->] | [NW ->]]; cbn [bind].
  - left. split; [exact BW | reflexivity].
  - destruct (Qeq_bool (inject_Z W) 0) eqn:EW.
    + right. left. apply Qeq_bool_inject_Z in EW. split; [exact EW | reflexivity].
    + assert (W <> 0%Z) as HW0
        by (intros E; apply Qeq_bool_inject_Z in E; congruence).
      destruct (float_of_int_cases H) as [[BH ->] | [NH ->]]; cbn [bind].
      * right. right. left. repeat split; assumption.
      * destruct (Qeq_bool (inject_Z H) 0) eqn:EH.
        -- right. right. right. left. apply Qeq_bool_inject_Z in EH.
           repeat split; assumption.
        -- assert (H <> 0%Z) as HH0
             by (intros E; apply Qeq_bool_inject_Z in E; congruence).
           right. right. right. right. repeat split; assumption.
Qed.


(** X6: which exception [scale_rel_box] raises, by the image width and
    height: [OverflowError] when the width, or for a non-zero width the
    height, is an integer beyond the range of floats; [ZeroDivisionError]
    when the width is 0, or the width is in range and the height is 0; it
    returns in every other case, and then a non-negative width and height
    stay non-negative for a positive image width and height. *)
Theorem scale_rel_box_exceptions (W H C : Z) (box : Box) :
  (scale_rel_box (W, H, C) box = Err OverflowError <->
   beyond_double W \/ (W <> 0%Z /\ beyond_double H)) /\
  (scale_rel_box (W, H, C) box = Err ZeroDivisionError <->
   W = 0%Z \/ (~ beyond_double W /\ H = 0%Z)) /\
  ((exists r, scale_rel_box (W, H, C) box = Ok r) <->
   W <> 0%Z /\ H <> 0%Z /\ ~ beyond_double W /\ ~ beyond_double H) /\
  (forall xc yc bw bh,
     scale_rel_box (W, H, C) box = Ok (xc, yc, bw, bh) ->
     (0 < W)%Z -> (0 < H)%Z -> 0 <= w box -> 0 <= h box ->
     0 <= bw /\ 0 <= bh).
Proof.
  pose proof zero_not_beyond_double as Z0.
  destruct (scale_rel_box_cases W H C box)
    as [[BW E] | [[HW E] | [[NW [HW [BH E]]] | [[NW [HW [HH E]]] |
        [NW [HW [NH [HH E]]]]]]]]; rewrite E.
  - split; [|split; [|split]].
    + split; [intros _; left; exact BW | reflexivity].
    + split; [discriminate|]. intros [-> | [NW _]]; contradiction.
    + split; [intros [r Hr]; discriminate|]. intros [_ [_ [NW _]]]. contradiction.
    + discriminate.
  - subst W. split; [|split; [|split]].
    + split; [discriminate|]. intros [BW | [HW _]]; [contradiction | congruence].
    + split; [intros _; left | ]; reflexivity.
    + split; [intros [r Hr]; discriminate|]. intros [HW _]. congruence.
    + discriminate.
  - split; [|split; [|split]].
    + split; [intros _; right; split; assumption | reflexivity].
    + split; [discriminate|].
      intros [-> | [_ ->]]; [congruence | contradiction].
    + split; [intros [r Hr]; discriminate|]. intros [_ [_ [_ NH]]]. contradiction.
    + discriminate.
  - subst H. split; [|split; [|split]].
    + split; [discriminate|]. intros [BW | [_ BH]]; contradiction.
    + split; [intros _; right; split; [assumption | reflexivity] | reflexivity].
    + split; [intros [r Hr]; discriminate|]. intros [_ [HH _]]. congruence.
    + discriminate.
  - split; [|split; [|split]].
    + split; [discriminate|]. intros [BW | [_ BH]]; contradiction.
    + split; [discriminate|]. intros [-> | [_ ->]]; congruence.
    + split; [intros _; repeat split; assumption | intros _; eexists; reflexivity].
    + intros xc yc bw bh Hr PW PH Hw Hh. inversion Hr; subst. clear Hr.
      assert (0 < inject_Z W) as QW
        by (replace 0 with (inject_Z 0) by reflexivity; rewrite <- Zlt_Qlt; exact PW).
      assert (0 < inject_Z H) as QH
        by (replace 0 with (inject_Z 0) by reflexivity; rewrite <- Zlt_Qlt; exact PH).
      assert (forall d, 0 < d -> 0 < 1 / d) as Hinv
        by (intros d Hd; apply Qlt_shift_div_l; [exact Hd | lra]).
      pose proof (Hinv _ QW). pose proof (Hinv _ QH).
      split; apply Qmult_le_0_compat; lra.
Qed.

Lemma scale_rel_box_exceptions_witness :
  scale_rel_box (1280, 0, 3)%Z (mkBox 60 120 100 200) = Err ZeroDivisionError.
Proof.
  apply (proj1 (proj2 (scale_rel_box_exceptions 1280 0 3 (mkBox 60 120 100 200)))).
  right. split; [|reflexivity].
  unfold beyond_double. apply Z.lt_nge.
  apply (Z.lt_le_trans _ (2 ^ 11) _); [reflexivity|].
  assert (2 * 2 ^ 970 <= 2 ^ 1024)%Z.
  { change (2 * 2 ^ 970)%Z with (2 ^ 1 * 2 ^ 970)%Z.
    rewrite <- Z.pow_add_r by lia. apply Z.pow_le_mono_r; lia. }
  assert (2 ^ 11 <= 2 ^ 970)%Z by (apply Z.pow_le_mono_r; lia).
  lia.
Defined.

Section ReaderFacts.

Variable float_of_string : string -> option Q.
Variable rstrip : string -> string.

(** X7: [convert_bbox] returns exactly when [float()] accepts its four
    arguments, and raises [ValueError] otherwise; the width and the height
    it returns are the differences [x2 - x1] and [y2 - y1], positive
    exactly when [x1 < x2] and [y1 < y2]. *)
Theorem convert_bbox_size (x1 y1 x2 y2 : pyval) :
  match py_float float_of_string x1, py_float float_of_string y1,
        py_float float_of_string x2, py_float float_of_string y2 with
  | Ok a, Ok b, Ok c, Ok d =>
      exists xc yc bw bh,
        convert_bbox float_of_string x1 y1 x2 y2 = Ok (xc, yc, bw, bh) /\
        bw = c - a /\ bh = d - b /\
        (0 < bw <-> a < c) /\ (0 < bh <-> b < d)
  | _, _, _, _ => convert_bbox float_of_string x1 y1 x2 y2 = Err ValueError
  end.
Proof.
  assert (forall v e, py_float float_of_string v = Err e -> e = ValueError) as Herr.
  { intros [s|q] e; simpl; [|discriminate].
    destruct (float_of_string s); [discriminate|]. intros E. congruence. }
  unfold convert_bbox.
  destruct (py_float float_of_string x1) as [a|e1] eqn:E1;
    destruct (py_float float_of_string y1) as [b|e2] eqn:E2;
    destruct (py_float float_of_string x2) as [c|e3] eqn:E3;
    destruct (py_float float_of_string y2) as [d|e4] eqn:E4;
    cbn [bind];
    try (rewrite (Herr _ _ E1)); try (rewrite (Herr _ _ E2));
    try (rewrite (Herr _ _ E3)); try (rewrite (Herr _ _ E4));
    try reflexivity.
  do 4 eexists. split; [reflexivity|].
  split; [reflexivity|]. split; [reflexivity|]. split; split; intros; lra.
Qed.

(** X8: a label line is only accepted with exactly six comma-separated
    fields: when the stripped line does not hold exactly five commas,
    [read_line] raises [ValueError] (and so it does whenever a coordinate
    is not a number); no box is made of such a line. *)
Theorem read_line_needs_six_fields (img_size : Z * Z * Z) (line : string) :
  (count_commas (rstrip line) <> 5%nat ->
   read_line float_of_string rstrip img_size line = Err ValueError) /\
  (forall box, read_line float_of_string rstrip img_size line = Ok box ->
     exists img_path x1 y1 x2 y2 label a b c d,
       split_comma (rstrip line) = [img_path; x1; y1; x2; y2; label] /\
       float_of_string x1 = Some a /\ float_of_string y1 = Some b /\
       float_of_string x2 = Some c /\ float_of_string y2 = Some d).
Proof.
  unfold read_line. pose proof (split_comma_length (rstrip line)) as Hlen.
  split.
  - intros Hc.
    destruct (split_comma (rstrip line))
      as [|f0 [|f1 [|f2 [|f3 [|f4 [|f5 [|f6 fs]]]]]]]; try reflexivity.
    simpl in Hlen. exfalso. apply Hc. congruence.
  - intros box H.
    destruct (split_comma (rstrip line))
      as [|f0 [|f1 [|f2 [|f3 [|f4 [|f5 [|f6 fs]]]]]]]; try discriminate.
    exists f0, f1, f2, f3, f4, f5.
    unfold convert_bbox, py_float in H.
    destruct (float_of_string f3) as [c|]; [|discriminate].
    destruct (float_of_string f1) as [a|]; [|discriminate].
    destruct (float_of_string f4) as [d|]; [|discriminate].
    destruct (float_of_string f2) as [b|]; [|discriminate].
    exists a, b, c, d. repeat split; reflexivity.
Qed.

End ReaderFacts.

(** ** The whole program *)




Section ReaderRuns.

Variable float_of_string : string -> option Q.
Variable rstrip : string -> string.



(** X10: on an empty label file, [__main__] prints nothing: the draw of the
    centroids raises [ValueError] when [k] is positive, and for [k = 0] the
    clustering step divides by a zero counter. *)
Theorem main_on_empty_file (fuel k : nat) (eps : Q) (W H : Z) (idx : list nat) :
  length idx = k ->
  main float_of_string rstrip fuel k [] eps W H idx
  = Some (Err (if (k =? 0)%nat then ZeroDivisionError else ValueError)).
Proof.
  intros Hlen. unfold main. simpl read_lines. cbv iota.
  unfold k_mean_cluster. destruct k as [|k].
  - destruct idx; [|discriminate]. simpl pick_centroids. cbn [length Nat.eqb Nat.ltb Nat.leb andb].
    rewrite run_k_mean_no_boxes. reflexivity.
  - reflexivity.
Qed.


End ReaderRuns.

Lemma read_line_needs_six_fields_witness :
  read_line (fun _ => None) (fun s => s) (1280, 960, 3)%Z "img.jpg,10,20"%string
  = Err ValueError.
Proof.
  apply (proj1 (read_line_needs_six_fields (fun _ => None) (fun s => s)
                  (1280, 960, 3)%Z "img.jpg,10,20"%string)).
  vm_compute. discriminate.
Defined.

Lemma main_on_empty_file_witness :
  main (fun _ => None) (fun s => s) 3 5 [] (1#100000) 1280 960
       [0; 0; 0; 0; 0]%nat
  = Some (Err ValueError).
Proof.
  apply (main_on_empty_file (fun _ => None) (fun s => s) 3 5 (1#100000) 1280 960
           [0; 0; 0; 0; 0]%nat eq_refl).
Defined.


(** ** Identical boxes *)

(** Against centroids that are all the same box, every distance is the
    same and the scan stays on index 0. *)
Lemma scan_identical_centroids (b c : Box) (K : nat) (d : Q) (g : nat) :
  nearest b (repeat c K) = Ok (d, g) -> g = 0%nat.
Proof.
  intros Hn. unfold nearest in Hn.
  destruct (nearest_from_spec _ _ _ _ _ _ _ Hn) as [ds [Hds [_ [_ Hcase]]]].
  destruct Hcase as [[Hg _] | [_ [_ [Hnth Hbefore]]]]; [exact Hg|].
  rewrite Nat.sub_0_r in Hnth, Hbefore.
  destruct g as [|g]; [reflexivity | exfalso].
  destruct (distances_nth_inv _ _ _ _ _ Hds Hnth) as [cg [vg [Hcg [Evg Hd]]]].
  apply nth_error_In, repeat_spec in Hcg. subst cg.
  destruct K as [|K]; [simpl in Hds; inversion Hds; subst; discriminate|].
  destruct (distances_nth b (repeat c (S K)) ds 0 c Hds eq_refl) as [v0 [Ev0 H0]].
  assert (v0 = vg) by congruence. subst v0.
  specialize (Hbefore 0%nat (1 - vg) (Nat.lt_0_succ g) H0).
  rewrite Hd in Hbefore. apply (Qlt_irrefl _ Hbefore).
Qed.

(** Against one centroid followed by zero boxes, the scan of a box of
    non-negative size stays on index 0. *)
Lemma scan_first_then_zeros (b c0 : Box) (K : nat) (d : Q) (g : nat) :
  nonneg b -> nearest b (c0 :: repeat zero_box K) = Ok (d, g) -> g = 0%nat.
Proof.
  intros Hb Hn.
  destruct g as [|g]; [reflexivity | exfalso].
  pose proof (nearest_from_index _ _ _ _ _ _ _ Hn) as Hg.
  simpl in Hg. rewrite repeat_length in Hg.
  assert (nth_error (c0 :: repeat zero_box K) (S g) = Some zero_box) as Hnth.
  { simpl. rewrite (nth_error_nth' _ zero_box) by (rewrite repeat_length; lia).
    rewrite nth_repeat_zero. reflexivity. }
  destruct (scan_avoids_zero_centroid b _ (S g) zero_box d (S g) Hn Hb Hnth)
    as [_ Hne]; try reflexivity; [discriminate|].
  apply Hne. reflexivity.
Qed.

(** A step that returns after sending every box to group 0 gives the mean
    box of all the boxes, followed by zero boxes. *)
Lemma step_all_in_first_group (K : nat) (boxes cs a : list Box) (avg l : Q) :
  run_k_mean K boxes cs = Ok (a, avg, l) ->
  (forall b d g, In b boxes -> nearest b cs = Ok (d, g) -> g = 0%nat) ->
  (1 <= K)%nat ->
  a = mean_box boxes :: repeat zero_box (K - 1).
Proof.
  intros E Hscan HK.
  destruct (run_k_mean_ok _ _ _ _ _ _ E) as [st [_ [Est [Eans _]]]].
  destruct (run_assignment_ok _ _ _ _ Est) as [_ [_ [Hall _]]].
  assert (Forall (fun b => group_of cs b = 0%nat) boxes) as Hzero.
  { rewrite Forall_forall in *. intros b Hin. destruct (Hall b Hin) as [Hn _].
    apply (Hscan b _ _ Hin Hn). }
  assert (length a = K) as Hlen by (rewrite Eans; apply average_anchors_length).
  apply (nth_ext _ _ zero_box zero_box).
  - rewrite Hlen. simpl. rewrite repeat_length. lia.
  - intros i Hi. rewrite Hlen in Hi.
    rewrite Eans, (average_anchors_ok _ _ _ _ _ Est Hi).
    destruct i as [|i].
    + rewrite (members_all _ _ Hzero).
      destruct boxes; [|reflexivity].
      rewrite run_k_mean_no_boxes in E. discriminate.
    + rewrite members_none.
      * simpl. symmetry. apply nth_repeat_zero.
      * rewrite Forall_forall in *. intros b Hin. rewrite (Hzero b Hin).
        discriminate.
Qed.

Lemma pick_centroids_repeat (b : Box) (N : nat) (idx : list nat) :
  Forall (fun i => (i < N)%nat) idx ->
  pick_centroids (repeat b N) idx = Ok (repeat b (length idx)).
Proof.
  intros H. induction H as [|i idx Hi H IH]; simpl.
  - reflexivity.
  - assert (nth_error (repeat b N) i = Some b) as ->.
    { rewrite (nth_error_nth' _ b) by (rewrite repeat_length; exact Hi).
      rewrite nth_repeat. reflexivity. }
    rewrite IH. reflexivity.
Qed.

(** X13: when all the ground-truth boxes are one and the same box of
    positive width and height, for every [K >= 1], every draw and every
    positive threshold the driver is over after two rounds of the loop at
    the latest.  If the seeding step or the step that follows it raises an
    exception, so does the driver.  Otherwise both steps put every box in
    group 0 and give the mean box of the boxes, as lines 119-126 compute
    it, followed by [K - 1] zero boxes, and the driver returns these
    anchors at the first or at the second convergence test. *)
Theorem identical_boxes_one_group (fuel K N : nat) (b : Box) (idx : list nat)
    (eps : Q) :
  positive b -> (1 <= K)%nat -> (1 <= N)%nat ->
  length idx = K -> Forall (fun i => (i < N)%nat) idx ->
  0 < eps -> (2 <= fuel)%nat ->
  match run_k_mean K (repeat b N) (repeat b K) with
  | Err e => k_mean_cluster fuel K (repeat b N) idx eps = Some (Err e)
  | Ok (a0, _, _) =>
      a0 = mean_box (repeat b N) :: repeat zero_box (K - 1) /\
      match run_k_mean K (repeat b N)
              (mean_box (repeat b N) :: repeat zero_box (K - 1)) with
      | Err e => k_mean_cluster fuel K (repeat b N) idx eps = Some (Err e)
      | Ok (a1, avg1, _) =>
          a1 = mean_box (repeat b N) :: repeat zero_box (K - 1) /\
          k_mean_cluster fuel K (repeat b N) idx eps
          = Some (Ok (mean_box (repeat b N) :: repeat zero_box (K - 1), avg1))
      end
  end.
Proof.
  intros Hb HK HN Hlen Hidx Heps Hfuel.
  unfold k_mean_cluster. rewrite repeat_length.
  assert (((N =? 0) && (0 <? K))%nat = false) as ->
    by (destruct N; [lia | reflexivity]).
  rewrite (pick_centroids_repeat b N idx Hidx), Hlen.
  destruct (run_k_mean K (repeat b N) (repeat b K)) as [[[a0 avg0] l0]|e] eqn:E0;
    [|reflexivity].
  assert (a0 = mean_box (repeat b N) :: repeat zero_box (K - 1)) as ->.
  { apply (step_all_in_first_group K _ _ _ _ _ E0); [|exact HK].
    intros b' d g _ Hn.
    apply (scan_identical_centroids _ _ _ _ _ Hn). }
  split; [reflexivity|].
  destruct fuel as [|[|fuel]]; try lia.
  rewrite k_mean_loop_unfold.
  destruct (run_k_mean K (repeat b N)
              (mean_box (repeat b N) :: repeat zero_box (K - 1)))
    as [[[a1 avg1] l1]|e] eqn:E1; [|reflexivity].
  assert (a1 = mean_box (repeat b N) :: repeat zero_box (K - 1)) as ->.
  { apply (step_all_in_first_group K _ _ _ _ _ E1); [|exact HK].
    intros b' d g Hin Hn. apply repeat_spec in Hin. subst b'.
    apply (scan_first_then_zeros _ _ _ _ _ (positive_nonneg _ Hb) Hn). }
  split; [reflexivity|].
  destruct (Qltb (Qabs (l0 - l1)) eps); [reflexivity|].
  rewrite k_mean_loop_unfold, E1.
  assert (Qltb (Qabs (l1 - l1)) eps = true) as ->.
  { apply Qltb_lt. rewrite Qabs_self_sub. exact Heps. }
  reflexivity.
Qed.

Lemma identical_boxes_one_group_witness :
  exists avg,
    k_mean_cluster 2 2 (repeat (wh (1#2) (1#4)) 3) [0; 2]%nat (1#100000)
    = Some (Ok (mean_box (repeat (wh (1#2) (1#4)) 3) :: repeat zero_box (2 - 1), avg)).
Proof.
  pose proof (identical_boxes_one_group 2 2 3 (wh (1#2) (1#4)) [0; 2]%nat (1#100000)
                (conj eq_refl eq_refl) (le_S 1 1 (le_n 1))
                (le_S 1 2 (le_S 1 1 (le_n 1))) eq_refl
                ltac:(repeat constructor) eq_refl (le_n 2)) as H.
  destruct (run_k_mean 2 (repeat (wh (1#2) (1#4)) 3) (repeat (wh (1#2) (1#4)) 2))
    as [[[a0 avg0] l0]|e] eqn:E0; [|vm_compute in E0; discriminate E0].
  destruct H as [_ H].
  destruct (run_k_mean 2 (repeat (wh (1#2) (1#4)) 3)
              (mean_box (repeat (wh (1#2) (1#4)) 3) :: repeat zero_box (2 - 1)))
    as [[[a1 avg1] l1]|e] eqn:E1; [|vm_compute in E1; discriminate E1].
  destruct H as [_ H]. exists avg1. exact H.
Defined.
